(** * FixIrreducibleControlFlow: a shallow embedding

    The pass of [llvm/Cheerp/FixIrreducibleControlFlow.h] turns loops with
    several entries into loops with a single entry.  The header declares the
    data the pass works on ([MetaBlock], [GraphNode], [SubGraph],
    [SCCVisitor]) and defines two of its operations inline: the constructor
    of [MetaBlock] and [SubGraph::getOrCreate].  Those two are embedded from
    the code.  The bodies the header only declares are modelled from the
    specification, and say so in their comments. *)

From stdpp Require Import base option list gmap sets.

(** ** The control-flow graph *)

(** A [BasicBlock*] is the position of the block in the function's block
    list: blocks are only ever appended, so positions are stable. *)
Abbreviation BasicBlock := nat (only parsing).

(** Values that can flow into a phi. *)
Inductive Value : Type :=
  | VConst (n : nat)                  (* a ConstantInt *)
  | VUndef                            (* UndefValue *)
  | VInst (id : nat)                  (* the result of a non-phi instruction *)
  | VPhi (b : BasicBlock) (i : nat).  (* the i-th phi of block b *)

#[global] Instance Value_eq_dec : EqDecision Value.
Proof. solve_decision. Defined.

(** A phi-merge record: the incoming (block, value) pairs. *)
Abbreviation PHINode := (list (nat * Value)) (only parsing).

(** A terminator names its successors in ordered slots.  [TBr] is a branch
    whose condition is opaque; [TSwitch] is the multiway branch on a value,
    case [i] going to the [i]-th slot and the default being unreachable. *)
Inductive Terminator : Type :=
  | TBr (slots : list BasicBlock)
  | TSwitch (cond : Value) (cases : list BasicBlock).

#[global] Instance Terminator_eq_dec : EqDecision Terminator.
Proof. solve_decision. Defined.

Record Block : Type := mkBlock {
  phis : list PHINode;
  term : Terminator
}.

#[global] Instance Block_eq_dec : EqDecision Block.
Proof. solve_decision. Defined.

Abbreviation Function := (list Block) (only parsing).

(** The entry block of a function is its first block. *)
Definition entryBlock : BasicBlock := 0.

Definition successors (t : Terminator) : list BasicBlock :=
  match t with
  | TBr l => l
  | TSwitch _ l => l
  end.

(** [succ_begin(BB) .. succ_end(BB)] *)
Definition succ_list (F : Function) (b : BasicBlock) : list BasicBlock :=
  match F !! b with
  | Some B => successors (term B)
  | None => []
  end.

(** [pred_begin(BB) .. pred_end(BB)]: one entry per terminator slot that
    names [H], so a predecessor with two edges to [H] is listed twice. *)
Definition pred_list (F : Function) (H : BasicBlock) : list BasicBlock :=
  P ← seq 0 (length F);
  s ← succ_list F P;
  if decide (s = H) then [P] else [].

Definition edge (F : Function) (a b : BasicBlock) : Prop := b ∈ succ_list F a.

#[global] Instance edge_dec F a b : Decision (edge F a b).
Proof. unfold edge. apply _. Defined.

(** ** Reachability and dominance *)

(** [path F p]: consecutive blocks of [p] are joined by edges. *)
Fixpoint path (F : Function) (p : list BasicBlock) : Prop :=
  match p with
  | a :: (b :: _) as q => edge F a b ∧ path F q
  | _ => True
  end.

(** [path_from_to F a b p]: [p] is a path that starts at [a] and ends at [b]. *)
Definition path_from_to (F : Function) (a b : BasicBlock) (p : list BasicBlock) : Prop :=
  head p = Some a ∧ last p = Some b ∧ path F p.

(** One round of the closure: add the successors of the blocks found so
    far that satisfy [ok]. *)
Definition reach_step (F : Function) (ok : BasicBlock → bool) (S : gset BasicBlock)
  : gset BasicBlock :=
  S ∪ list_to_set (filter (λ s, ok s = true) (elements S ≫= succ_list F)).

(** The blocks reachable from [src] through blocks satisfying [ok].  A path
    without repetition has at most [length F] edges, so that many rounds
    reach the fixed point. *)
Definition reach (F : Function) (ok : BasicBlock → bool) (src : BasicBlock)
  : gset BasicBlock :=
  Nat.iter (length F) (reach_step F ok) {[src]}.

(** Modelled from the spec: [DominatorTree::dominates], which the header
    calls and whose code is not part of the sources.  The glossary says "A
    dominates B if every path from function entry to B passes through A". *)
Definition Dominates (F : Function) (a b : BasicBlock) : Prop :=
  ∀ p, path_from_to F entryBlock b p → a ∈ p.

(** The executable version: [a] dominates [b] unless [b] can be reached
    from the entry block without going through [a]. *)
Definition dominates (F : Function) (a b : BasicBlock) : bool :=
  bool_decide (a = b) ||
  bool_decide (a = entryBlock) ||
  negb (bool_decide (b ∈ reach F (λ x, negb (bool_decide (x = a))) entryBlock)).

(** ** MetaBlock (from the header) *)

Record MetaBlock : Type := mkMetaBlock {
  Entry : BasicBlock;
  (* The original predecessors of this metablock *)
  Preds : gset BasicBlock;
  (* The forward blocks that logically lead towards this metablock *)
  Forwards : gset BasicBlock
}.

(** The loop of the constructor over one predecessor. *)
Definition MetaBlock_visit (DT : BasicBlock → BasicBlock → bool) (Entry : BasicBlock)
    (Preds : gset BasicBlock) (Pred : BasicBlock) : gset BasicBlock :=
  (* Do not include loops internal to the metablock *)
  if negb (DT Entry Pred) then {[Pred]} ∪ Preds else Preds.

(** [MetaBlock::MetaBlock(BasicBlock* Entry, DominatorTree& DT)], over the
    predecessor list [preds] of [Entry]. *)
Definition MetaBlock_new (DT : BasicBlock → BasicBlock → bool)
    (preds : list BasicBlock) (Entry : BasicBlock) : MetaBlock :=
  {| Entry := Entry;
     Preds := foldl (MetaBlock_visit DT Entry) ∅ preds;
     Forwards := ∅ |}.

Definition getEntry (M : MetaBlock) : BasicBlock := Entry M.
Definition predecessors (M : MetaBlock) : gset BasicBlock := Preds M.
Definition forwards (M : MetaBlock) : gset BasicBlock := Forwards M.

Definition addForwardBlock (M : MetaBlock) (Fwd : BasicBlock) : MetaBlock :=
  {| Entry := Entry M; Preds := Preds M; Forwards := {[Fwd]} ∪ Forwards M |}.

(** The constructor as the pass calls it: on the predecessors of [Entry] in
    [F], with the dominator tree of [F]. *)
Definition MetaBlock_of (F : Function) (Entry : BasicBlock) : MetaBlock :=
  MetaBlock_new (dominates F) (pred_list F Entry) Entry.

#[global] Arguments MetaBlock_of : simpl never.

(** ** GraphNode and SubGraph (from the header) *)

(** A node of the restricted graph.  The C++ node also holds a reference
    to the [SubGraph] that owns it; here a node is only ever reached through
    its owner, so the back-reference is implicit. *)
Record GraphNode : Type := mkGraphNode {
  Header : BasicBlock;
  Succs : list BasicBlock
}.

(** Modelled from the spec: the constructor [GraphNode::GraphNode], declared
    in the header and defined elsewhere.  The analysis is "restricted to the
    member set" of the subgraph: edges that leave the set are skipped. *)
Definition GraphNode_new (F : Function) (Blocks : gset BasicBlock) (BB : BasicBlock)
  : GraphNode :=
  {| Header := BB;
     Succs := filter (λ s, s ∈ Blocks) (succ_list F BB) |}.

(** [Nodes] is a [std::unordered_map<BasicBlock*, GraphNode>].  The elements
    of such a map are allocated one by one and never move, which is what
    makes the returned [GraphNode*] meaningful: [cells] is that storage (the
    code never erases, so it only grows), a [GraphNode*] is a position in
    it, and [Nodes] maps a block to the position of its element. *)
Record SubGraph : Type := mkSubGraph {
  SG_Entry : BasicBlock;
  Blocks : gset BasicBlock;
  Nodes : gmap BasicBlock nat;
  cells : list GraphNode
}.

(** [SubGraph::SubGraph(BasicBlock* Entry, BlockSet Blocks)] *)
Definition SubGraph_new (Entry : BasicBlock) (Blocks : gset BasicBlock) : SubGraph :=
  {| SG_Entry := Entry; Blocks := Blocks; Nodes := ∅; cells := [] |}.

(** [GraphNode* SubGraph::getOrCreate(BasicBlock* BB)] *)
Definition getOrCreate (F : Function) (G : SubGraph) (BB : BasicBlock) : nat * SubGraph :=
  match Nodes G !! BB with
  | Some it => (it, G)
  | None =>
      let it := length (cells G) in
      (it, {| SG_Entry := SG_Entry G; Blocks := Blocks G;
              Nodes := <[BB := it]> (Nodes G);
              cells := cells G ++ [GraphNode_new F (Blocks G) BB] |})
  end.

(** A sequence of calls, each on the subgraph the previous one left. *)
Fixpoint getOrCreate_all (F : Function) (G : SubGraph) (bbs : list BasicBlock)
  : list nat * SubGraph :=
  match bbs with
  | [] => ([], G)
  | BB :: rest =>
      let '(p, G1) := getOrCreate F G BB in
      let '(ps, G2) := getOrCreate_all F G1 rest in
      (p :: ps, G2)
  end.

(** ** GraphTraits<SubGraph*> (from the header) *)

(** [GraphTraits::getEntryNode]: the node of the entry of the subgraph. *)
Definition getEntryNode (F : Function) (G : SubGraph) : nat * SubGraph :=
  getOrCreate F G (SG_Entry G).

(** [GraphTraits::child_begin] up to [child_end]: the iterator maps each
    block of [N->Succs], in order, through [N->Graph.getOrCreate].  [N] is
    the node at position [p]; dereferencing a position that holds no node
    is not something the code does, and gives no children here. *)
Definition children (F : Function) (G : SubGraph) (p : nat) : list nat * SubGraph :=
  match cells G !! p with
  | Some N => getOrCreate_all F G (Succs N)
  | None => ([], G)
  end.

(** A pointer that is stored for some block. *)
Definition cached (G : SubGraph) (BB : BasicBlock) : Prop := is_Some (Nodes G !! BB).

(** ** The SCC finder *)

(** Modelled from the spec: the SCC finder (LLVM's [scc_iterator] over
    [GraphTraits<SubGraph*>], not part of the sources).  "Given a SubGraph,
    return its maximal strongly connected components reachable from its
    entry, restricted to its member set, in deterministic discovery order."
    The edges followed are the [Succs] of the graph nodes: those whose target
    is a member. *)
Definition in_region (Blocks : gset BasicBlock) (s : BasicBlock) : bool :=
  bool_decide (s ∈ Blocks).

Definition region_reach (F : Function) (Blocks : gset BasicBlock) (src : BasicBlock)
  : gset BasicBlock :=
  reach F (in_region Blocks) src.

(** The component of [v]: the blocks that reach [v] and are reached from it. *)
Definition scc_of (F : Function) (Blocks : gset BasicBlock) (v : BasicBlock)
  : gset BasicBlock :=
  filter (λ u, v ∈ region_reach F Blocks u) (region_reach F Blocks v).

Fixpoint scc_partition (F : Function) (Blocks : gset BasicBlock)
    (nodes : list BasicBlock) (seen : gset BasicBlock) : list (gset BasicBlock) :=
  match nodes with
  | [] => []
  | v :: rest =>
      if decide (v ∈ seen) then scc_partition F Blocks rest seen
      else
        let C := scc_of F Blocks v in
        C :: scc_partition F Blocks rest (seen ∪ C)
  end.

Definition scc_list (F : Function) (G : SubGraph) : list (gset BasicBlock) :=
  scc_partition F (Blocks G) (elements (region_reach F (Blocks G) (SG_Entry G))) ∅.

(** Modelled from the spec: "a header is a member block with an incoming
    edge from outside the component". *)
Definition is_header (F : Function) (C : gset BasicBlock) (h : BasicBlock) : Prop :=
  Exists (λ P, P ∉ C) (pred_list F h).

#[global] Instance is_header_dec F C h : Decision (is_header F C h).
Proof. unfold is_header. apply _. Defined.

(** The headers of a component, in discovery order. *)
Definition headers (F : Function) (C : gset BasicBlock) : list BasicBlock :=
  filter (is_header F C) (elements C).

(** Modelled from the spec: "a component is irreducible if it has more
    than one header". *)
Definition irreducible (F : Function) (C : gset BasicBlock) : bool :=
  bool_decide (1 < length (headers F C)).

(** ** The fix operation: dispatcher construction and phi relocation *)

(** The state of an [SCCVisitor]: the fields the header declares.  [Label]
    is the first phi of the dispatcher. *)
Record SCCVisitor : Type := mkSCCVisitor {
  VF : Function;
  (* The metablocks corresponding to the irreducible loop we identified *)
  MetaBlocks : list MetaBlock;
  (* The new block that will become the single entry of the new loop *)
  Dispatcher : BasicBlock;
  (* The value used by the dispatcher for forwarding to the next metablock *)
  Label : nat;
  (* The index of the entry of each metablock in the switch of the dispatcher *)
  Indices : gmap BasicBlock nat
}.

(** Mutation primitives of the CFG model. *)
Definition map_slots (r : BasicBlock → BasicBlock) (t : Terminator) : Terminator :=
  match t with
  | TBr l => TBr (r <$> l)
  | TSwitch c l => TSwitch c (r <$> l)
  end.

(** [TerminatorInst::setSuccessor] on every slot that names [from]. *)
Definition redirect (from to : BasicBlock) (t : Terminator) : Terminator :=
  map_slots (λ s, if decide (s = from) then to else s) t.

Definition set_term (t : Terminator) (B : Block) : Block :=
  {| phis := phis B; term := t |}.

Definition map_term (f : Terminator → Terminator) (B : Block) : Block :=
  {| phis := phis B; term := f (term B) |}.

Definition map_phis (f : list PHINode → list PHINode) (B : Block) : Block :=
  {| phis := f (phis B); term := term B |}.

(** [PHINode::addIncoming(v, pred)] on phi [i] of a block. *)
Definition addIncoming (i : nat) (pred : BasicBlock) (v : Value) (B : Block) : Block :=
  map_phis (alter (λ P, P ++ [(pred, v)]) i) B.

(** [PHINode::setIncomingBlock]: every phi of the block that lists [from]
    lists [to] instead. *)
Definition rename_phis (r : BasicBlock → BasicBlock) (Ps : list PHINode) : list PHINode :=
  (λ P : PHINode, (λ e : BasicBlock * Value, (r e.1, e.2)) <$> P) <$> Ps.

Definition rename_incoming (from to : BasicBlock) (B : Block) : Block :=
  map_phis (rename_phis (λ b, if decide (b = from) then to else b)) B.

(** Modelled from the spec: [SCCVisitor::fixPredecessor] (§4.3 step 3).
    "Create a forwarding block on edge P→M that sets Label = Index(M) and
    branches unconditionally to Dispatcher; redirect P's terminator to
    target the forwarding block instead of M.Entry."  The phis of the entry
    that listed [Pred] list the forwarding block from now on: that is how
    step 5 knows which predecessor a forwarding block stands for. *)
Definition fixPredecessor (V : SCCVisitor) (m : nat) (Pred : BasicBlock) : SCCVisitor :=
  match MetaBlocks V !! m with
  | None => V
  | Some Meta =>
      let BB := getEntry Meta in
      let Fwd := length (VF V) in
      let F1 := VF V ++ [ {| phis := []; term := TBr [Dispatcher V] |} ] in
      let F2 := alter (addIncoming (Label V) Fwd
                         (VConst (default 0 (Indices V !! BB)))) (Dispatcher V) F1 in
      let F3 := alter (rename_incoming Pred Fwd) BB F2 in
      let F4 := alter (map_term (redirect BB Fwd)) Pred F3 in
      {| VF := F4;
         MetaBlocks := <[m := addForwardBlock Meta Fwd]> (MetaBlocks V);
         Dispatcher := Dispatcher V;
         Label := Label V;
         Indices := Indices V |}
  end.

(** One phi of the entry of a metablock: its values for the forwarding
    blocks move to a new phi of the dispatcher, and the phi itself reads
    that one value when control comes from the dispatcher. *)
Definition moved_entries (Fwds : gset BasicBlock) (P : PHINode) : PHINode :=
  filter (λ e, e.1 ∈ Fwds) P.

Definition kept_entries (Fwds : gset BasicBlock) (P : PHINode) : PHINode :=
  filter (λ e, e.1 ∉ Fwds) P.

(** Modelled from the spec: [SCCVisitor::makeDispatchPHIs] (§4.3 step 5).
    "For every phi-merge record at a MetaBlock Entry ..., create a
    corresponding Label-indexed phi-merge inside Dispatcher selecting the
    right value per originating forwarding block, and make the Entry-block
    phi consume that single Dispatcher-computed value as its one incoming
    value from Dispatcher.  Incoming values from intra-component
    predecessors are left unchanged." *)
Definition makeDispatchPHIs (F : Function) (D : BasicBlock) (Meta : MetaBlock) : Function :=
  let Entry := getEntry Meta in
  let Ps := default [] (phis <$> F !! Entry) in
  let base := length (default [] (phis <$> F !! D)) in
  let F1 := alter (map_phis (λ l, l ++ (moved_entries (forwards Meta) <$> Ps))) D F in
  alter (map_phis (imap (λ j P, kept_entries (forwards Meta) P
                                  ++ [(D, VPhi D (base + j))]))) Entry F1.

(** Step 3 for one metablock: every predecessor gets its forwarding block. *)
Definition fixPredecessors (V : SCCVisitor) (m : nat) : SCCVisitor :=
  match MetaBlocks V !! m with
  | None => V
  | Some Meta => foldl (λ V Pred, fixPredecessor V m Pred) V (elements (predecessors Meta))
  end.

(** Modelled from the spec: [SCCVisitor::processBlocks] (§4.3, steps 2-5)
    on the headers [hs] of one component. *)
Definition processBlocks (F : Function) (hs : list BasicBlock) : SCCVisitor :=
  let D := length F in
  (* 1. one metablock per header, with the dominator tree of the function *)
  let Ms := MetaBlock_of F <$> hs in
  (* 2. the dispatcher and its label; one index per metablock *)
  let V0 := {| VF := F ++ [ {| phis := [ [] ]; term := TSwitch (VPhi D 0) [] |} ];
               MetaBlocks := Ms;
               Dispatcher := D;
               Label := 0;
               Indices := list_to_map (zip hs (seq 0 (length hs))) |} in
  (* 3. forwarding blocks *)
  let V1 := foldl fixPredecessors V0 (seq 0 (length hs)) in
  (* 4. the multiway branch on the label *)
  let F2 := alter (set_term (TSwitch (VPhi D (Label V1)) (getEntry <$> MetaBlocks V1)))
                  D (VF V1) in
  (* 5. phi relocation *)
  let F3 := foldl (λ F M, makeDispatchPHIs F D M) F2 (MetaBlocks V1) in
  {| VF := F3; MetaBlocks := MetaBlocks V1; Dispatcher := D;
     Label := Label V1; Indices := Indices V1 |}.

(** ** The fixpoint driver *)

(** Modelled from the spec: [SCCVisitor::run] (§4.4).  A component that is
    not irreducible "is left untouched"; for an irreducible one the fix
    operation runs and "the rewritten region (Dispatcher plus original
    component blocks)" is pushed on the queue. *)
Definition SCCVisitor_run (F : Function) (Queue : list SubGraph) (C : gset BasicBlock)
  : bool * Function * list SubGraph :=
  if irreducible F C then
    let V := processBlocks F (headers F C) in
    (true, VF V, Queue ++ [SubGraph_new (Dispatcher V) ({[Dispatcher V]} ∪ C)])
  else (false, F, Queue).

(** Modelled from the spec: [FixIrreducibleControlFlow::visitSubGraph]
    (§4.4): "pop a SubGraph, ..., run the SCC Finder, and for each
    irreducible component run §4.3". *)
Definition visitSubGraph (F : Function) (Queue : list SubGraph)
  : bool * Function * list SubGraph :=
  match Queue with
  | [] => (false, F, [])
  | SG :: Queue =>
      foldl (λ '(Irreducible, F, Queue) C,
               let '(b, F, Queue) := SCCVisitor_run F Queue C in
               (Irreducible || b, F, Queue))
            (false, F, Queue) (scc_list F SG)
  end.

(** The loop "while the queue is not empty", with [fuel] bounding the number
    of iterations; [None] when the fuel runs out. *)
Fixpoint run_queue (fuel : nat) (Changed : bool) (F : Function) (Queue : list SubGraph)
  : option (bool * Function) :=
  match Queue with
  | [] => Some (Changed, F)
  | _ =>
      match fuel with
      | 0 => None
      | S fuel =>
          let '(b, F, Queue) := visitSubGraph F Queue in
          run_queue fuel (Changed || b) F Queue
      end
  end.

(** The subgraph the pass starts from: all blocks, entered at the entry block. *)
Definition whole (F : Function) : SubGraph :=
  SubGraph_new entryBlock (list_to_set (seq 0 (length F))).

(** Modelled from the spec: [FixIrreducibleControlFlow::runOnFunction]. *)
Definition runOnFunction (fuel : nat) (F : Function) : option (bool * Function) :=
  run_queue fuel false F [whole F].

(** ** Executions *)

(** The values the phis hold, per block and position. *)
Abbreviation Env := (nat → nat → Value) (only parsing).

Definition env0 : Env := λ _ _, VUndef.

(** What a value stands for in an environment: a phi stands for the value
    it selected last. *)
Definition eval (env : Env) (v : Value) : Value :=
  match v with
  | VPhi b i => env b i
  | _ => v
  end.

(** [PHINode::getIncomingValueForBlock]: the first value listed for [pred]. *)
Fixpoint incoming_for (P : PHINode) (pred : BasicBlock) : Value :=
  match P with
  | [] => VUndef
  | e :: P' => if decide (e.1 = pred) then e.2 else incoming_for P' pred
  end.

Definition phis_of (F : Function) (b : BasicBlock) : list PHINode :=
  default [] (phis <$> F !! b).

(** The phi-merge selections made when control enters [b] from [pred]: all
    phis of [b] read the environment they are entered with. *)
Definition selected (F : Function) (env : Env) (pred b : BasicBlock) : list Value :=
  (λ P, eval env (incoming_for P pred)) <$> phis_of F b.

Definition enter (F : Function) (env : Env) (pred b : BasicBlock) : Env :=
  λ b' i,
    if decide (b' = b) then default (env b' i) (selected F env pred b !! i)
    else env b' i.

(** Which successor a terminator may pass control to.  The condition of a
    branch is opaque, so any of its slots; a switch follows the value it
    switches on, and has nowhere to go when no case matches (its default is
    unreachable). *)
Definition can_step (F : Function) (env : Env) (b s : BasicBlock) : Prop :=
  match term <$> F !! b with
  | Some (TBr l) => s ∈ l
  | Some (TSwitch c l) =>
      match eval env c with
      | VConst n => l !! n = Some s
      | _ => False
      end
  | None => False
  end.

#[global] Instance can_step_dec F env b s : Decision (can_step F env b s).
Proof.
  unfold can_step. destruct (term <$> F !! b) as [[l|c l]|]; try apply _.
  destruct (eval env c); apply _.
Defined.

(** An execution from block [cur] through the blocks [p], and the
    phi-merge selections it makes: for each block entered, the values its
    phis select.  [None] when some step is not one the terminator allows. *)
Fixpoint run (F : Function) (env : Env) (cur : BasicBlock) (p : list BasicBlock)
  : option (list (BasicBlock * list Value)) :=
  match p with
  | [] => Some []
  | s :: p' =>
      if decide (can_step F env cur s)
      then (λ tr, (s, selected F env cur s) :: tr) <$> run F (enter F env cur s) s p'
      else None
  end.

(** The environment and the block an execution ends with. *)
Fixpoint final_env (F : Function) (env : Env) (cur : BasicBlock) (p : list BasicBlock)
  : Env :=
  match p with
  | [] => env
  | s :: p' => final_env F (enter F env cur s) s p'
  end.

Definition final_block (cur : BasicBlock) (p : list BasicBlock) : BasicBlock :=
  default cur (last p).

(** The selections of a trace made in the blocks below [n]: the blocks of
    the function before [n] were there before the pass added its own. *)
Definition original (n : nat) (tr : list (BasicBlock * list Value))
  : list (BasicBlock * list Value) :=
  filter (λ e, e.1 < n) tr.

(** ** Well-formed functions *)

(** The C++ data cannot name a block or a phi that does not exist; block
    positions and phi references can, so well-formedness is stated. *)
Definition value_ok (n : nat) (v : Value) : Prop :=
  match v with
  | VPhi b _ => b < n
  | _ => True
  end.

#[global] Instance value_ok_dec n v : Decision (value_ok n v).
Proof. destruct v; simpl; apply _. Defined.

Definition term_ok (n : nat) (t : Terminator) : Prop :=
  match t with
  | TBr l => Forall (λ s, s < n) l
  | TSwitch c l => value_ok n c ∧ Forall (λ s, s < n) l
  end.

#[global] Instance term_ok_dec n t : Decision (term_ok n t).
Proof. destruct t; simpl; apply _. Defined.

Definition block_ok (n : nat) (B : Block) : Prop :=
  term_ok n (term B) ∧
  Forall (Forall (λ e : BasicBlock * Value, e.1 < n ∧ value_ok n e.2)) (phis B).

#[global] Instance block_ok_dec n B : Decision (block_ok n B).
Proof. unfold block_ok. apply _. Defined.

Definition wf (F : Function) : Prop := Forall (block_ok (length F)) F.

#[global] Instance wf_dec F : Decision (wf F).
Proof. unfold wf. apply _. Defined.

(** ** Notions used in the proofs *)

(** The cache is consistent when [Nodes] is the index of [cells]: a block is
    mapped to a position exactly when the node stored there is the node of
    that block. *)
Definition cache_ok (G : SubGraph) : Prop :=
  (∀ b p, Nodes G !! b = Some p ↔ Header <$> cells G !! p = Some b) ∧
  length (cells G) = size (Nodes G).

(** [okpath F ok src b p]: [p] is a path from [src] to [b] whose blocks after
    the first all satisfy [ok]. *)
Definition okpath (F : Function) (ok : BasicBlock → bool) (src b : BasicBlock)
    (p : list BasicBlock) : Prop :=
  path_from_to F src b p ∧ Forall (λ x, ok x = true) (tail p).

(** A phi entry names a block and a value below [n]. *)
Definition entry_ok (n : nat) (e : nat * Value) : Prop := e.1 < n ∧ value_ok n e.2.

(** Two environments agree on the phis of the blocks below [n]. *)
Definition env_agree (n : nat) (env env' : Env) : Prop :=
  ∀ b i, b < n → env b i = env' b i.

(** [trace_equiv n F F']: every execution of [F] from its entry block is
    matched by an execution of [F'] that makes the same phi-merge selections
    in the blocks below [n], in the same order, and every execution of [F']
    makes, in the blocks below [n], the selections of some execution of [F]. *)
Definition trace_equiv (n : nat) (F F' : Function) : Prop :=
  (∀ p tr, run F env0 entryBlock p = Some tr →
     ∃ p' tr', run F' env0 entryBlock p' = Some tr' ∧ original n tr' = tr) ∧
  (∀ p' tr', run F' env0 entryBlock p' = Some tr' →
     ∃ p, run F env0 entryBlock p = Some (original n tr')).

(** [b] can be reached from [a] / from the entry block. *)
Definition reachable_from (F : Function) (a b : BasicBlock) : Prop :=
  ∃ p, path_from_to F a b p.

Definition reachable (F : Function) (b : BasicBlock) : Prop :=
  reachable_from F entryBlock b.

(** The sets of a list are pairwise disjoint. *)
Fixpoint disjoint_list (l : list (gset BasicBlock)) : Prop :=
  match l with
  | [] => True
  | C :: l' => (∀ C', C' ∈ l' → C ## C') ∧ disjoint_list l'
  end.

(** The work a subgraph still holds: a component of [k] blocks can be cut
    [k - 1] times at most. *)
Definition weight (l : list (gset BasicBlock)) : nat :=
  sum_list ((λ C : gset BasicBlock, size C - 1) <$> l).

Definition mu (F : Function) (G : SubGraph) : nat := weight (scc_list F G).

(** The work a queue holds: one visit per subgraph, and the work of each. *)
Definition potential (F : Function) (Queue : list SubGraph) : nat :=
  sum_list ((λ G, 1 + mu F G) <$> Queue).

(** What the driver keeps true of its queue: the entry of a subgraph is one
    of its members and can be reached from the entry block of the function,
    its members are blocks of the function, and no block is a member of two
    queued subgraphs. *)
Definition subgraph_ok (F : list Block) (G : SubGraph) : Prop :=
  SG_Entry G ∈ Blocks G ∧ (∀ b, b ∈ Blocks G → b < length F) ∧
  reachable F (SG_Entry G).

Definition queue_ok (F : list Block) (Queue : list SubGraph) : Prop :=
  Forall (subgraph_ok F) Queue ∧ disjoint_list (Blocks <$> Queue).

(** The components still to be looked at in one visit: pairwise disjoint,
    made of blocks that can be reached, and disjoint from the queued
    subgraphs. *)
Definition comps_ok (F : list Block) (Queue : list SubGraph)
    (comps : list (gset nat)) : Prop :=
  disjoint_list comps ∧
  ∀ C, C ∈ comps →
    (∀ u, u ∈ C → u < length F ∧ reachable F u) ∧
    (∀ G, G ∈ Queue → C ## Blocks G).


(** *** The result of the fix operation, in closed form *)

Fixpoint index_of {A} `{EqDecision A} (x : A) (l : list A) : option nat :=
  match l with
  | [] => None
  | y :: l' => if decide (y = x) then Some 0 else S <$> index_of x l'
  end.

(** The (metablock index, predecessor) pairs, in the order in which step 3
    creates their forwarding blocks. *)
Definition pairs_of (F : Function) (i : nat) (h : BasicBlock) : list (nat * BasicBlock) :=
  (λ P, (i, P)) <$> elements (Preds (MetaBlock_of F h)).

Definition fwd_pairs (F : Function) (hs : list BasicBlock) : list (nat * BasicBlock) :=
  mjoin (imap (pairs_of F) hs).

(** With the pairs [L] done so far and [n] blocks before the fix: where a
    slot of block [b] that named [s] points, and which block a phi of
    metablock [i] lists instead of [blk]. *)
Definition rsucc (n : nat) (hs : list BasicBlock) (L : list (nat * BasicBlock))
    (b s : BasicBlock) : BasicBlock :=
  match index_of s hs with
  | Some i => match index_of (i, b) L with Some k => n + 1 + k | None => s end
  | None => s
  end.

Definition rblk (n : nat) (L : list (nat * BasicBlock)) (i : nat) (blk : BasicBlock)
  : BasicBlock :=
  match index_of (i, blk) L with Some k => n + 1 + k | None => blk end.

(** The forwarding blocks of metablock [i]. *)
Definition fwdset (n : nat) (L : list (nat * BasicBlock)) (i : nat) : gset BasicBlock :=
  list_to_set (mjoin (imap (λ k e, if decide (e.1 = i) then [n + 1 + k] else []) L)).

Definition forward_block (n : nat) : Block := {| phis := []; term := TBr [n] |}.

Definition label_phi (n : nat) (L : list (nat * BasicBlock)) : PHINode :=
  imap (λ k e, (n + 1 + k, VConst e.1)) L.

(** Block [b] once step 3 has been done for the pairs [L]. *)
Definition block3 (n : nat) (hs : list BasicBlock) (L : list (nat * BasicBlock))
    (b : BasicBlock) (B : Block) : Block :=
  {| phis := match index_of b hs with
             | Some i => rename_phis (rblk n L i) (phis B)
             | None => phis B
             end;
     term := map_slots (rsucc n hs L b) (term B) |}.

Definition dispatcher3 (n : nat) (L : list (nat * BasicBlock)) : Block :=
  {| phis := [label_phi n L]; term := TSwitch (VPhi n 0) [] |}.

(** The function after step 3 has been done for the pairs [L]. *)
Definition after3 (F : Function) (hs : list BasicBlock) (L : list (nat * BasicBlock))
  : Function :=
  imap (block3 (length F) hs L) F
  ++ [dispatcher3 (length F) L]
  ++ replicate (length L) (forward_block (length F)).

Definition metablocks3 (F : Function) (hs : list BasicBlock) (L : list (nat * BasicBlock))
  : list MetaBlock :=
  imap (λ i h, {| Entry := h; Preds := Preds (MetaBlock_of F h);
                  Forwards := fwdset (length F) L i |}) hs.

Definition visitor3 (F : Function) (hs : list BasicBlock) (L : list (nat * BasicBlock))
  : SCCVisitor :=
  {| VF := after3 F hs L; MetaBlocks := metablocks3 F hs L; Dispatcher := length F;
     Label := 0; Indices := list_to_map (zip hs (seq 0 (length hs))) |}.

(** The phis step 5 adds to the dispatcher for metablock [j]. *)
Definition moved3 (F : Function) (L : list (nat * BasicBlock)) (j : nat) (h : BasicBlock)
  : list PHINode :=
  moved_entries (fwdset (length F) L j) <$> rename_phis (rblk (length F) L j) (phis_of F h).

Definition dispatch_phis (F : Function) (hs : list BasicBlock) (L : list (nat * BasicBlock))
    (i : nat) : list PHINode :=
  mjoin (imap (moved3 F L) (take i hs)).

(** The position in the dispatcher of the first phi added for metablock [j]. *)
Definition base (F : Function) (hs : list BasicBlock) (L : list (nat * BasicBlock))
    (j : nat) : nat :=
  1 + length (dispatch_phis F hs L j).

(** Block [b] once step 5 has been done for the first [i] metablocks. *)
Definition block5 (F : Function) (hs : list BasicBlock) (L : list (nat * BasicBlock))
    (i : nat) (b : BasicBlock) (B : Block) : Block :=
  {| phis := match index_of b hs with
             | Some j =>
                 if decide (j < i)
                 then imap (λ q P, kept_entries (fwdset (length F) L j) P
                                     ++ [(length F, VPhi (length F) (base F hs L j + q))])
                           (rename_phis (rblk (length F) L j) (phis B))
                 else rename_phis (rblk (length F) L j) (phis B)
             | None => phis B
             end;
     term := map_slots (rsucc (length F) hs L b) (term B) |}.

Definition dispatcher5 (F : Function) (hs : list BasicBlock) (L : list (nat * BasicBlock))
    (i : nat) : Block :=
  {| phis := label_phi (length F) L :: dispatch_phis F hs L i;
     term := TSwitch (VPhi (length F) 0) hs |}.

Definition after5 (F : Function) (hs : list BasicBlock) (L : list (nat * BasicBlock))
    (i : nat) : Function :=
  imap (block5 F hs L i) F
  ++ [dispatcher5 F hs L i]
  ++ replicate (length L) (forward_block (length F)).

(** The function the fix operation leaves, in closed form. *)
Definition fixed (F : Function) (hs : list BasicBlock) : Function :=
  after5 F hs (fwd_pairs F hs) (length hs).

(** ** Example functions *)

(** A loop header with a self-loop: 0 → 1, 1 → 1, 1 → 2. *)
Definition selfloop_fn : list Block :=
  [ mkBlock [] (TBr [1]); mkBlock [] (TBr [1; 2]); mkBlock [] (TBr []) ].


(** The classic loop with two entries, with a phi at each of them:
    0 → 1, 0 → 2, 1 → 2, 2 → 1. *)
Definition two_entry_fn : list Block :=
  [ mkBlock [] (TBr [1; 2]);
    mkBlock [ [(0, VInst 10); (2, VInst 12)] ] (TBr [2]);
    mkBlock [ [(0, VInst 20); (1, VInst 21)] ] (TBr [1]) ].

(** What the pass makes of it. *)
Definition two_entry_fixed : list Block :=
  Eval vm_compute in
    match runOnFunction 2 two_entry_fn with
    | Some (_, F) => F
    | None => []
    end.




(** * Properties *)

(** ** Edges and predecessors *)

Lemma elem_of_pred_list F H P : P ∈ pred_list F H ↔ edge F P H.
Proof.
  unfold pred_list, edge. rewrite list_elem_of_bind. split.
  - intros (y & Hy & _). apply list_elem_of_bind in Hy as (s & Hs & Hin).
    destruct (decide (s = H)) as [->|]; [|by apply elem_of_nil in Hs].
    apply list_elem_of_singleton in Hs as ->. done.
  - intros HP. exists P. split.
    + apply list_elem_of_bind. exists H. split; [|done].
      rewrite decide_True by done. by apply list_elem_of_singleton.
    + apply elem_of_seq. split; [lia|]. simpl.
      unfold succ_list in HP. destruct (F !! P) eqn:E.
      * by apply lookup_lt_Some in E.
      * by apply elem_of_nil in HP.
Qed.

Lemma edge_lt F a b : edge F a b → a < length F.
Proof.
  unfold edge, succ_list. destruct (F !! a) eqn:E.
  - intros _. by apply lookup_lt_Some in E.
  - by intros ?%elem_of_nil.
Qed.

(** ** The constructor of MetaBlock *)

Lemma MetaBlock_visit_foldl DT E (l : list nat) (S : gset nat) P :
  P ∈ foldl (MetaBlock_visit DT E) S l ↔ P ∈ S ∨ (P ∈ l ∧ DT E P = false).
Proof.
  revert S. induction l as [|x l IH]; intros S; simpl.
  - rewrite elem_of_nil. naive_solver.
  - rewrite IH. unfold MetaBlock_visit. rewrite elem_of_cons.
    destruct (DT E x) eqn:Hx; simpl.
    + split; [naive_solver|]. intros [?|[[->|?] ?]]; [by left|congruence|by right].
    + rewrite elem_of_union, elem_of_singleton. naive_solver.
Qed.

Lemma elem_of_MetaBlock_Preds F DT H P :
  P ∈ Preds (MetaBlock_new DT (pred_list F H) H) ↔ edge F P H ∧ DT H P = false.
Proof.
  simpl. rewrite MetaBlock_visit_foldl, elem_of_pred_list. set_solver.
Qed.

(** C4. The predecessors a fresh MetaBlock for [H] records are exactly the
    blocks [P] with an edge [P → H] that [H] does not dominate in the
    dominator tree [DT] it was given; its entry is [H] and it has no forward
    block yet. *)
Theorem MetaBlock_Preds_exact (F : list Block) (DT : nat → nat → bool) (H : nat) :
  let M := MetaBlock_new DT (pred_list F H) H in
  (∀ P, P ∈ Preds M ↔ edge F P H ∧ DT H P = false) ∧
  getEntry M = H ∧ forwards M = ∅.
Proof.
  simpl. split; [|done]. intros P. apply elem_of_MetaBlock_Preds.
Qed.

(** ** The node cache of SubGraph *)

Lemma cache_ok_new E B : cache_ok (SubGraph_new E B).
Proof.
  split; [|done]. intros b p. simpl. rewrite lookup_empty. by destruct p.
Qed.

Lemma getOrCreate_spec F G BB p G' :
  cache_ok G → getOrCreate F G BB = (p, G') →
  cache_ok G' ∧ Nodes G ⊆ Nodes G' ∧ Nodes G' !! BB = Some p ∧
  dom (Nodes G') = {[BB]} ∪ dom (Nodes G) ∧
  Blocks G' = Blocks G ∧ SG_Entry G' = SG_Entry G ∧
  length (cells G') = length (cells G) + (if decide (BB ∈ dom (Nodes G)) then 0 else 1).
Proof.
  intros [Hidx Hlen]. unfold getOrCreate. destruct (Nodes G !! BB) as [q|] eqn:E.
  - intros [= <- <-]. split_and!; try done.
    + apply set_eq. intros x. rewrite elem_of_union, elem_of_singleton, !elem_of_dom.
      split; [by right|]. intros [->|?]; [by eexists|done].
    + rewrite decide_True; [lia|]. apply elem_of_dom. by eexists.
  - intros [= <- <-]. simpl. split_and!; try done.
    + split; simpl.
      * intros b p. destruct (decide (b = BB)) as [->|Hne].
        -- rewrite lookup_insert_eq. split.
           ++ intros [= <-]. by rewrite lookup_app_r, Nat.sub_diag.
           ++ intros Hp. f_equal. destruct (decide (p < length (cells G))) as [Hlt|Hge].
              ** rewrite lookup_app_l in Hp by done. apply Hidx in Hp. congruence.
              ** destruct (decide (p = length (cells G))) as [->|]; [done|].
                 rewrite lookup_ge_None_2 in Hp; [done|]. rewrite length_app. simpl. lia.
        -- rewrite lookup_insert_ne by done. rewrite Hidx. split.
           ++ intros Hp. rewrite lookup_app_l; [done|].
              destruct (cells G !! p) eqn:Ec; [|done]. by apply lookup_lt_Some in Ec.
           ++ intros Hp. destruct (decide (p < length (cells G))) as [Hlt|Hge].
              ** by rewrite lookup_app_l in Hp.
              ** destruct (decide (p = length (cells G))) as [->|].
                 --- rewrite lookup_app_r, Nat.sub_diag in Hp by done. simpl in Hp. congruence.
                 --- rewrite lookup_ge_None_2 in Hp; [done|]. rewrite length_app. simpl. lia.
      * rewrite length_app, map_size_insert_None by done. simpl. lia.
    + by apply insert_subseteq.
    + by rewrite lookup_insert_eq.
    + by rewrite dom_insert_L.
    + rewrite length_app. simpl. rewrite decide_False; [done|].
      by apply not_elem_of_dom.
Qed.

Lemma getOrCreate_all_spec F bbs : ∀ G ps G',
  cache_ok G → getOrCreate_all F G bbs = (ps, G') →
  cache_ok G' ∧ Nodes G ⊆ Nodes G' ∧ length ps = length bbs ∧
  (∀ i b p, bbs !! i = Some b → ps !! i = Some p → Nodes G' !! b = Some p) ∧
  dom (Nodes G') = list_to_set bbs ∪ dom (Nodes G).
Proof.
  induction bbs as [|BB rest IH]; intros G ps G' Hok; simpl.
  - intros [= <- <-]. split_and!; [done..| |set_solver].
    intros i b p. by destruct i.
  - destruct (getOrCreate F G BB) as [p G1] eqn:E1.
    destruct (getOrCreate_all F G1 rest) as [ps' G2] eqn:E2.
    intros [= <- <-].
    destruct (getOrCreate_spec _ _ _ _ _ Hok E1) as (Hok1 & Hsub1 & Hp & Hdom1 & _).
    destruct (IH _ _ _ Hok1 E2) as (Hok2 & Hsub2 & Hlen & Hptr & Hdom2).
    split_and!; try done.
    + by etrans.
    + simpl. by rewrite Hlen.
    + intros [|i] b q; simpl.
      * intros [= <-] [= <-]. by eapply lookup_weaken.
      * apply Hptr.
    + rewrite Hdom2, Hdom1. set_solver.
Qed.

(** C10. Starting from a freshly constructed SubGraph and after any calls
    [pre], any further calls [bbs] of [getOrCreate] return the same pointer
    for two calls exactly when the two calls are for the same block; the
    storage holds at most one node per block, each pointer returned for a
    block points to the node of that block, and a node was created only at
    the first call for each block (there are as many nodes as distinct
    blocks asked for). *)
Theorem getOrCreate_one_node_per_block (F : list Block) (E : nat) (B : gset nat)
    (pre bbs : list nat) :
  let G := (getOrCreate_all F (SubGraph_new E B) pre).2 in
  let ps := (getOrCreate_all F G bbs).1 in
  let G' := (getOrCreate_all F G bbs).2 in
  length ps = length bbs ∧
  (∀ i j b b' p q, bbs !! i = Some b → bbs !! j = Some b' →
     ps !! i = Some p → ps !! j = Some q → (p = q ↔ b = b')) ∧
  (∀ i b p, bbs !! i = Some b → ps !! i = Some p →
     Header <$> cells G' !! p = Some b) ∧
  NoDup (Header <$> cells G') ∧
  length (cells G') = size (list_to_set (pre ++ bbs) : gset nat).
Proof.
  simpl.
  destruct (getOrCreate_all F (SubGraph_new E B) pre) as [ps0 G] eqn:E0.
  destruct (getOrCreate_all_spec _ _ _ _ _ (cache_ok_new E B) E0)
    as (Hok & _ & _ & _ & Hdom0). simpl in *.
  destruct (getOrCreate_all F G bbs) as [ps G'] eqn:E1.
  destruct (getOrCreate_all_spec _ _ _ _ _ Hok E1)
    as (Hok' & _ & Hlen & Hptr & Hdom1). simpl.
  destruct Hok' as [Hidx Hsize].
  split_and!.
  - done.
  - intros i j b b' p q Hi Hj Hpi Hpj.
    pose proof (Hptr _ _ _ Hi Hpi) as H1. pose proof (Hptr _ _ _ Hj Hpj) as H2.
    split.
    + intros ->. apply Hidx in H1, H2. congruence.
    + intros ->. congruence.
  - intros i b p Hi Hpi. apply Hidx. eauto.
  - apply NoDup_alt. intros i j b Hi Hj.
    rewrite list_lookup_fmap in Hi, Hj. apply Hidx in Hi, Hj. congruence.
  - rewrite Hsize. rewrite <- size_dom. rewrite Hdom1, Hdom0.
    f_equal. rewrite list_to_set_app_L. set_solver.
Qed.

(** ** Paths *)

Lemma path_cons F a p : path F (a :: p) ↔ (∀ b, head p = Some b → edge F a b) ∧ path F p.
Proof.
  destruct p as [|b p]; simpl.
  - split; [|done]. intros _. split; [|done]. by intros b [=].
  - split.
    + intros [? ?]. split; [|done]. by intros ? [= <-].
    + intros [H ?]. split; [|done]. by apply H.
Qed.

Lemma path_app F p q :
  path F (p ++ q) ↔
  path F p ∧ path F q ∧ (∀ a b, last p = Some a → head q = Some b → edge F a b).
Proof.
  induction p as [|a p IH].
  - simpl. split; [|naive_solver]. intros ?. split_and!; [done..|]. by intros ?? [=].
  - rewrite <- app_comm_cons, !path_cons, IH. destruct p as [|c p].
    + simpl. split.
      * intros (He & ? & ? & _). split_and!; [by intros ? [=]|done..|].
        intros ?? [= <-]. apply He.
      * intros ((_ & _) & ? & He). split_and!; [|done..|by intros ?? [=]].
        intros b Hb. by apply He.
    + rewrite last_cons_cons. simpl. naive_solver.
Qed.

Lemma path_snoc F p a b :
  path F p → last p = Some a → edge F a b → path F (p ++ [b]).
Proof.
  intros Hp Hl He. apply path_app. split_and!; [done..|].
  intros a' b' Ha' [= <-]. congruence.
Qed.

Lemma path_from_to_singleton F a : path_from_to F a a [a].
Proof. done. Qed.

Lemma path_from_to_snoc F a b c p :
  path_from_to F a b p → edge F b c → path_from_to F a c (p ++ [c]).
Proof.
  intros (Hh & Hl & Hp) He. split_and!.
  - destruct p; [done|]. done.
  - by rewrite last_snoc.
  - by eapply path_snoc.
Qed.

Lemma path_from_to_app F a b c p q :
  path_from_to F a b p → path_from_to F b c q → path_from_to F a c (p ++ tail q).
Proof.
  intros (Hh & Hl & Hp) (Hh' & Hl' & Hq).
  destruct q as [|b' q]; [done|]. simpl in Hh'. injection Hh' as ->. simpl.
  split_and!.
  - destruct p; [done|]. done.
  - destruct q as [|x q]; [rewrite app_nil_r; simpl in Hl'; congruence|].
    rewrite last_app. rewrite last_cons_cons in Hl'. by rewrite Hl'.
  - apply path_app. apply path_cons in Hq as [Hq1 Hq2]. split_and!; [done..|].
    intros a' b' Ha' Hb'. rewrite Hl in Ha'. injection Ha' as <-. by apply Hq1.
Qed.

Lemma path_from_to_elem_l F a b p : path_from_to F a b p → a ∈ p.
Proof. intros (Hh & _). destruct p; [done|]. injection Hh as ->. left. Qed.

Lemma path_from_to_elem_r F a b p : path_from_to F a b p → b ∈ p.
Proof.
  intros (_ & Hl & _). apply last_Some in Hl as [l' ->].
  apply elem_of_app. right. left.
Qed.

(** Splitting a path at a block it goes through. *)
Lemma path_from_to_split F a b x p :
  path_from_to F a b p → x ∈ p →
  ∃ p1 p2, p = p1 ++ tail p2 ∧ path_from_to F a x p1 ∧ path_from_to F x b p2 ∧
           x ∉ tail p2.
Proof.
  intros (Hh & Hl & Hp) Hx.
  assert (∃ l1 l2, p = l1 ++ x :: l2 ∧ x ∉ l2) as (l1 & l2 & -> & Hnin).
  { clear Hh Hl Hp. induction p as [|y p IH]; [by apply elem_of_nil in Hx|].
    destruct (decide (x ∈ p)) as [Hin|Hnin].
    - destruct (IH Hin) as (l1 & l2 & -> & ?). by exists (y :: l1), l2.
    - apply elem_of_cons in Hx as [->|?]; [|done]. by exists [], p. }
  exists (l1 ++ [x]), (x :: l2). simpl. split_and!.
  - by rewrite <- app_assoc.
  - apply path_app in Hp as (Hp1 & Hp2 & He). split_and!.
    + destruct l1; [done|]. done.
    + by rewrite last_snoc.
    + apply path_app. split_and!; [done..|]. intros a' b' Ha' [= <-]. by apply He.
  - apply path_app in Hp as (Hp1 & Hp2 & He). split_and!; [done| |done].
    rewrite <- Hl. destruct l2 as [|z l2].
    + by rewrite last_snoc.
    + rewrite last_app. rewrite !last_cons_cons.
      by destruct (last (z :: l2)) eqn:E; [|apply last_None in E].
  - done.
Qed.

(** ** Reachability: the closure computes the paths *)

Lemma elem_of_reach_step F ok (S : gset nat) b :
  b ∈ reach_step F ok S ↔ b ∈ S ∨ ∃ u, u ∈ S ∧ edge F u b ∧ ok b = true.
Proof.
  unfold reach_step. rewrite elem_of_union, elem_of_list_to_set, list_elem_of_filter.
  rewrite list_elem_of_bind. setoid_rewrite elem_of_elements. unfold edge. naive_solver.
Qed.

Lemma iter_reach_src F ok src k : src ∈ Nat.iter k (reach_step F ok) ({[src]} : gset nat).
Proof.
  induction k as [|k IH]; simpl.
  - by apply elem_of_singleton.
  - apply elem_of_reach_step. by left.
Qed.

Lemma okpath_refl F ok a : okpath F ok a a [a].
Proof. split; [done|]. constructor. Qed.

Lemma okpath_snoc F ok a b c p :
  okpath F ok a b p → edge F b c → ok c = true → okpath F ok a c (p ++ [c]).
Proof.
  intros [Hp Hok] He Hc. split; [by eapply path_from_to_snoc|].
  destruct p as [|x p]; [by destruct Hp|]. simpl in *.
  apply Forall_app. split; [done|]. by constructor.
Qed.

Lemma iter_reach_sound F ok src k b :
  b ∈ Nat.iter k (reach_step F ok) ({[src]} : gset nat) → ∃ p, okpath F ok src b p.
Proof.
  revert b. induction k as [|k IH]; intros b; simpl.
  - intros ->%elem_of_singleton. eexists. apply okpath_refl.
  - intros [?|(u & Hu & He & Hb)]%elem_of_reach_step; [by apply IH|].
    destruct (IH _ Hu) as [p Hp]. eexists. by eapply okpath_snoc.
Qed.

Lemma iter_reach_complete F ok src k : ∀ p b,
  okpath F ok src b p → length p ≤ S k →
  b ∈ Nat.iter k (reach_step F ok) ({[src]} : gset nat).
Proof.
  induction k as [|k IH]; intros p b [(Hh & Hl & Hp) Hok] Hlen.
  - destruct p as [|x [|y p]]; simpl in *; try done; try lia.
    apply elem_of_singleton. congruence.
  - destruct (last_Some p b) as [[q ->] _]; [done|]. clear Hl.
    destruct q as [|a q].
    + simpl in Hh. injection Hh as ->. apply iter_reach_src.
    + simpl. apply elem_of_reach_step. right.
      apply path_app in Hp as (Hq & _ & He).
      destruct (last (a :: q)) as [u|] eqn:Hu; [|by apply last_None in Hu].
      exists u. split_and!.
      * apply (IH (a :: q)).
        -- split; [done|]. simpl in *. by apply Forall_app in Hok as [? _].
        -- rewrite length_app in Hlen. simpl in *. lia.
      * by apply He.
      * simpl in Hok. apply Forall_app in Hok as [_ Hb]. by inversion Hb.
Qed.

(** A path can be cut down to one that visits no block twice. *)
Lemma path_from_to_NoDup F a b p :
  path_from_to F a b p →
  ∃ q, path_from_to F a b q ∧ NoDup q ∧ q ⊆ p.
Proof.
  revert a. induction p as [|x p IH]; intros a (Hh & Hl & Hp); [done|].
  simpl in Hh. injection Hh as ->.
  destruct p as [|c p].
  { exists [a]. split_and!; [done|apply NoDup_singleton|done]. }
  apply path_cons in Hp as [He Hp]. rewrite last_cons_cons in Hl.
  destruct (IH c) as (q & Hq & Hnd & Hsub); [done|].
  destruct (decide (a ∈ q)) as [Hin|Hnin].
  - destruct (path_from_to_split _ _ _ _ _ Hq Hin) as (p1 & p2 & -> & _ & Hp2 & Hfresh).
    exists p2. split_and!; [done| |].
    + destruct p2 as [|y p2]; [by destruct Hp2|]. simpl in Hnd, Hfresh.
      destruct Hp2 as ([= ->] & _). apply NoDup_app in Hnd as (_ & _ & Hnd2).
      by apply NoDup_cons.
    + intros y Hy. destruct p2 as [|z p2]; [by destruct Hp2|].
      destruct Hp2 as ([= ->] & _). apply elem_of_cons in Hy as [->|Hy]; [left|].
      right. apply Hsub. apply elem_of_app. by right.
  - exists (a :: q). split_and!.
    + split_and!; [done| |].
      * destruct Hq as (_ & Hlq & _). destruct q; [done|]. by rewrite last_cons_cons.
      * apply path_cons. split; [|by destruct Hq as (_&_&?)].
        intros y Hy. apply He. destruct Hq as (Hhq & _). simpl. congruence.
    + by apply NoDup_cons.
    + intros y [->|Hy]%elem_of_cons; [left|right; by apply Hsub].
Qed.

Lemma okpath_NoDup F ok a b p :
  okpath F ok a b p → ∃ q, okpath F ok a b q ∧ NoDup q.
Proof.
  intros [Hp Hok]. destruct (path_from_to_NoDup _ _ _ _ Hp) as (q & Hq & Hnd & Hsub).
  exists q. split; [|done]. split; [done|].
  destruct Hp as (Hhp & _). destruct p as [|a' p]; [done|]. injection Hhp as ->.
  destruct Hq as (Hhq & _). destruct q as [|a' q]; [done|]. injection Hhq as ->.
  simpl in *. apply NoDup_cons in Hnd as [Ha _].
  apply Forall_forall. intros x Hx. rewrite Forall_forall in Hok. apply Hok.
  assert (x ∈ a :: p) as [->|?]%elem_of_cons by (apply Hsub; by right); done.
Qed.

Lemma path_init_lt F q b : path F (q ++ [b]) → Forall (λ x, x < length F) q.
Proof.
  induction q as [|x q IH]; [constructor|].
  rewrite <- app_comm_cons, path_cons. intros [He Hp]. constructor; [|by apply IH].
  destruct (q ++ [b]) as [|y l] eqn:E; [by destruct q|].
  eapply edge_lt. by apply He.
Qed.

Lemma NoDup_lt_length (l : list nat) n : NoDup l → Forall (λ x, x < n) l → length l ≤ n.
Proof.
  intros Hnd Hlt. trans (length (seq 0 n)); [|by rewrite length_seq].
  apply submseteq_length.
  apply NoDup_submseteq; [done|]. intros x Hx. apply elem_of_seq.
  rewrite Forall_forall in Hlt. specialize (Hlt _ Hx). lia.
Qed.

Lemma path_NoDup_length F a b q :
  path_from_to F a b q → NoDup q → length q ≤ S (length F).
Proof.
  intros (_ & Hl & Hp) Hnd. apply last_Some in Hl as [q' ->].
  rewrite length_app. simpl. apply NoDup_app in Hnd as (Hnd & _ & _).
  pose proof (NoDup_lt_length _ _ Hnd (path_init_lt _ _ _ Hp)). lia.
Qed.

(** The closure is exact: it holds the blocks a path leads to. *)
Lemma reach_spec F ok src b :
  b ∈ reach F ok src ↔ ∃ p, okpath F ok src b p.
Proof.
  split; [apply iter_reach_sound|].
  intros [p Hp]. destruct (okpath_NoDup _ _ _ _ _ Hp) as (q & Hq & Hnd).
  eapply iter_reach_complete; [done|]. eapply path_NoDup_length; [apply Hq|done].
Qed.

(** ** Dominance *)

Lemma dominates_spec F a b : dominates F a b = true ↔ Dominates F a b.
Proof.
  unfold dominates, Dominates. split.
  - intros H p Hp. destruct (decide (a ∈ p)) as [|Hnin]; [done|exfalso].
    apply orb_true_iff in H as [H|H].
    + apply orb_true_iff in H as [H|H]; apply bool_decide_eq_true in H; subst.
      * apply Hnin. by eapply path_from_to_elem_r.
      * apply Hnin. by eapply path_from_to_elem_l.
    + apply negb_true_iff, bool_decide_eq_false in H. apply H, reach_spec.
      exists p. split; [done|]. apply Forall_forall. intros x Hx.
      apply negb_true_iff, bool_decide_eq_false. intros ->. apply Hnin.
      destruct p; [done|]. by right.
  - intros H. destruct (decide (a = b)) as [->|Hab].
    { by rewrite bool_decide_eq_true_2. }
    destruct (decide (a = entryBlock)) as [->|Hae].
    { rewrite (bool_decide_eq_true_2 (entryBlock = entryBlock)) by done.
      by rewrite orb_true_r. }
    apply orb_true_iff. right. apply negb_true_iff, bool_decide_eq_false.
    intros (p & Hp & Hok)%reach_spec. specialize (H p Hp).
    destruct Hp as (Hh & _). destruct p as [|x p]; [done|]. injection Hh as ->.
    apply elem_of_cons in H as [->|H]; [done|]. simpl in Hok.
    rewrite Forall_forall in Hok. specialize (Hok _ H).
    apply negb_true_iff, bool_decide_eq_false in Hok. done.
Qed.

Lemma Dominates_refl F a : Dominates F a a.
Proof. intros p Hp. by eapply path_from_to_elem_r. Qed.

(** C9. A header [H] with a self-loop edge is its own predecessor, and it
    dominates itself; so the MetaBlock built for [H] does not hold [H] among
    its predecessors, and the self-loop is not one of the edges the fix
    operation reroutes. *)
Theorem MetaBlock_excludes_self_loop (F : list Block) (H : nat) :
  edge F H H →
  H ∈ pred_list F H ∧ Dominates F H H ∧ H ∉ Preds (MetaBlock_of F H).
Proof.
  intros He. split_and!.
  - by apply elem_of_pred_list.
  - apply Dominates_refl.
  - unfold MetaBlock_of. intros Hin.
    apply elem_of_MetaBlock_Preds in Hin as [_ Hd].
    assert (dominates F H H = true) by apply dominates_spec, Dominates_refl.
    congruence.
Qed.

Lemma MetaBlock_excludes_self_loop_witness :
  edge selfloop_fn 1 1 ∧
  1 ∈ pred_list selfloop_fn 1 ∧ Dominates selfloop_fn 1 1 ∧
  1 ∉ Preds (MetaBlock_of selfloop_fn 1).
Proof.
  assert (He : edge selfloop_fn 1 1) by (apply (bool_decide_unpack _); vm_compute; exact I).
  split; [exact He|]. exact (MetaBlock_excludes_self_loop selfloop_fn 1 He).
Defined.

(** ** The driver on functions without irreducible component *)

Lemma visit_components_untouched F comps : ∀ b Queue,
  Forall (λ C, length (headers F C) ≤ 1) comps →
  foldl (λ '(Irreducible, F, Queue) C,
           let '(b, F, Queue) := SCCVisitor_run F Queue C in
           (Irreducible || b, F, Queue))
        (b, F, Queue) comps = (b, F, Queue).
Proof.
  induction comps as [|C comps IH]; intros b Queue Hall; [done|].
  apply Forall_cons in Hall as [HC Hall]. simpl.
  unfold SCCVisitor_run, irreducible. rewrite bool_decide_eq_false_2 by lia.
  rewrite orb_false_r. by apply IH.
Qed.



(** ** The fix operation in closed form *)

Lemma index_of_Some {A} `{EqDecision A} (x : A) l k :
  index_of x l = Some k → l !! k = Some x.
Proof.
  revert k. induction l as [|y l IH]; intros k; simpl; [done|].
  destruct (decide (y = x)) as [->|].
  - by intros [= <-].
  - destruct (index_of x l); [|done]. intros [= <-]. by apply IH.
Qed.

Lemma index_of_None {A} `{EqDecision A} (x : A) l :
  index_of x l = None ↔ x ∉ l.
Proof.
  induction l as [|y l IH]; simpl.
  - split; [|done]. intros _. apply not_elem_of_nil.
  - rewrite not_elem_of_cons. destruct (decide (y = x)) as [->|].
    + split; [done|]. by intros [? _].
    + destruct (index_of x l); simpl.
      * split; [done|]. intros [_ Hx]. by apply IH in Hx.
      * split; [|done]. intros _. split; [done|]. by apply IH.
Qed.

Lemma index_of_app {A} `{EqDecision A} (x : A) l1 l2 :
  index_of x (l1 ++ l2) =
  match index_of x l1 with
  | Some k => Some k
  | None => (λ k, length l1 + k) <$> index_of x l2
  end.
Proof.
  induction l1 as [|y l1 IH]; simpl.
  - by destruct (index_of x l2).
  - destruct (decide (y = x)); [done|]. rewrite IH.
    destruct (index_of x l1); [done|]. by destruct (index_of x l2).
Qed.

Lemma index_of_lookup {A} `{EqDecision A} (x : A) l k :
  NoDup l → l !! k = Some x → index_of x l = Some k.
Proof.
  intros Hnd. revert k. induction Hnd as [|y l Hy Hnd IH]; intros k; [done|].
  destruct k as [|k]; simpl.
  - intros [= ->]. by rewrite decide_True.
  - intros Hk. rewrite decide_False.
    + by rewrite (IH _ Hk).
    + intros ->. apply Hy. by eapply list_elem_of_lookup_2.
Qed.

Lemma index_of_lt {A} `{EqDecision A} (x : A) l k :
  index_of x l = Some k → k < length l.
Proof. intros Hk%index_of_Some. by eapply lookup_lt_Some. Qed.

Lemma length_after3 F hs L : length (after3 F hs L) = length F + 1 + length L.
Proof.
  unfold after3. rewrite !length_app, length_imap, length_replicate. simpl. lia.
Qed.

Lemma after3_lookup F hs L k :
  after3 F hs L !! k =
  if decide (k < length F) then block3 (length F) hs L k <$> F !! k
  else if decide (k = length F) then Some (dispatcher3 (length F) L)
  else if decide (k < length F + 1 + length L) then Some (forward_block (length F))
  else None.
Proof.
  unfold after3. destruct (decide (k < length F)) as [Hlt|Hge].
  - rewrite lookup_app_l by (by rewrite length_imap). by rewrite list_lookup_imap.
  - rewrite lookup_app_r by (rewrite length_imap; lia). rewrite length_imap.
    destruct (decide (k = length F)) as [->|Hne].
    + by rewrite Nat.sub_diag.
    + destruct (k - length F) as [|m] eqn:Em; [lia|]. simpl.
      destruct (decide (k < length F + 1 + length L)).
      * apply lookup_replicate_2. lia.
      * apply lookup_ge_None_2. rewrite length_replicate. lia.
Qed.

Lemma rsucc_snoc n hs L i h P b s :
  NoDup hs → hs !! i = Some h → h < n → (i, P) ∉ L →
  rsucc n hs (L ++ [(i, P)]) b s =
  if decide (b = P)
  then (λ s', if decide (s' = h) then n + 1 + length L else s') (rsucc n hs L b s)
  else rsucc n hs L b s.
Proof.
  intros Hnd Hi Hh HL. unfold rsucc.
  destruct (index_of s hs) as [j|] eqn:Ej.
  - rewrite index_of_app. destruct (index_of (j, b) L) as [k0|] eqn:Ek; simpl.
    + destruct (decide (b = P)); [|done]. rewrite decide_False; [done|lia].
    + destruct (decide ((i, P) = (j, b))) as [[= <- <-]|Hne]; simpl.
      * rewrite decide_True by done. apply index_of_Some in Ej.
        rewrite decide_True by congruence. f_equal. lia.
      * destruct (decide (b = P)) as [->|]; [|done].
        rewrite decide_False; [done|]. intros ->.
        rewrite (index_of_lookup _ _ _ Hnd Hi) in Ej. congruence.
  - destruct (decide (b = P)); [|done]. rewrite decide_False; [done|].
    intros ->. apply index_of_None in Ej. apply Ej. by eapply list_elem_of_lookup_2.
Qed.

Lemma rblk_snoc_same n L i P blk :
  P < n → (i, P) ∉ L →
  rblk n (L ++ [(i, P)]) i blk =
  if decide (rblk n L i blk = P) then n + 1 + length L else rblk n L i blk.
Proof.
  intros HP HL. unfold rblk. rewrite index_of_app.
  destruct (index_of (i, blk) L) as [k0|] eqn:Ek; simpl.
  - rewrite decide_False; [done|lia].
  - destruct (decide ((i, P) = (i, blk))) as [[= <-]|Hne]; simpl.
    + rewrite decide_True by done. f_equal. lia.
    + rewrite decide_False; [done|]. congruence.
Qed.

Lemma rblk_snoc_other n L i j P blk :
  j ≠ i → rblk n (L ++ [(i, P)]) j blk = rblk n L j blk.
Proof.
  intros Hne. unfold rblk. rewrite index_of_app.
  destruct (index_of (j, blk) L); simpl; [done|].
  rewrite decide_False; [done|]. congruence.
Qed.

Lemma fwdset_snoc n L i P j :
  fwdset n (L ++ [(i, P)]) j =
  if decide (i = j) then {[n + 1 + length L]} ∪ fwdset n L j else fwdset n L j.
Proof.
  unfold fwdset. rewrite imap_app, join_app, list_to_set_app_L. simpl.
  rewrite Nat.add_0_r. destruct (decide (i = j)); simpl; set_solver.
Qed.

Lemma map_slots_ext r1 r2 t :
  (∀ s, s ∈ successors t → r1 s = r2 s) → map_slots r1 t = map_slots r2 t.
Proof.
  intros Hr. destruct t; simpl in *; f_equal; apply list_fmap_ext; intros ???;
    apply Hr; by eapply list_elem_of_lookup_2.
Qed.

Lemma map_slots_compose r1 r2 t :
  map_slots r1 (map_slots r2 t) = map_slots (r1 ∘ r2) t.
Proof. destruct t; simpl; by rewrite <- list_fmap_compose. Qed.

Lemma map_slots_id t : map_slots id t = t.
Proof. destruct t; simpl; by rewrite list_fmap_id. Qed.

Lemma rename_phis_ext r1 r2 Ps :
  (∀ b, r1 b = r2 b) → rename_phis r1 Ps = rename_phis r2 Ps.
Proof.
  intros Hr. unfold rename_phis. apply list_fmap_ext. intros _ P _.
  apply list_fmap_ext. intros _ e _. by rewrite Hr.
Qed.

Lemma rename_phis_compose r1 r2 Ps :
  rename_phis r1 (rename_phis r2 Ps) = rename_phis (r1 ∘ r2) Ps.
Proof.
  unfold rename_phis. rewrite <- list_fmap_compose. apply list_fmap_ext.
  intros _ P _. simpl. rewrite <- list_fmap_compose. done.
Qed.

Lemma rename_phis_id Ps : rename_phis id Ps = Ps.
Proof.
  unfold rename_phis. rewrite <- (list_fmap_id Ps) at 2. apply list_fmap_ext.
  intros _ P _. rewrite <- (list_fmap_id P) at 2. apply list_fmap_ext.
  by intros _ [] _.
Qed.

Lemma Indices_lookup (hs : list nat) i h :
  NoDup hs → hs !! i = Some h →
  (list_to_map (zip hs (seq 0 (length hs))) : gmap nat nat) !! h = Some i.
Proof.
  intros Hnd Hi. apply elem_of_list_to_map_1.
  - rewrite fst_zip; [done|]. by rewrite length_seq.
  - apply list_elem_of_lookup. exists i. rewrite lookup_zip_with, Hi. simpl.
    rewrite lookup_seq_lt by (by eapply lookup_lt_Some). done.
Qed.

Lemma metablocks3_lookup F hs L i h :
  hs !! i = Some h →
  metablocks3 F hs L !! i =
  Some {| Entry := h; Preds := Preds (MetaBlock_of F h); Forwards := fwdset (length F) L i |}.
Proof. intros Hi. unfold metablocks3. by rewrite list_lookup_imap, Hi. Qed.

Lemma lookup_alter_if {A} (f : A → A) (l : list A) i j :
  alter f i l !! j = (if decide (i = j) then f else id) <$> l !! j.
Proof.
  destruct (decide (i = j)) as [->|].
  - by rewrite list_lookup_alter_eq.
  - rewrite list_lookup_alter_ne by done. by destruct (l !! j).
Qed.

(** One forwarding block more: the closed form follows step 3. *)
Lemma fixPredecessor_visitor3 F hs L i h P :
  NoDup hs → hs !! i = Some h → h < length F → P < length F → (i, P) ∉ L →
  fixPredecessor (visitor3 F hs L) i P = visitor3 F hs (L ++ [(i, P)]).
Proof.
  intros Hnd Hi Hh HP HL. unfold fixPredecessor. simpl.
  rewrite (metablocks3_lookup _ _ _ _ _ Hi). simpl.
  rewrite (Indices_lookup _ _ _ Hnd Hi). simpl.
  unfold visitor3. f_equal.
  - apply list_eq. intros k. rewrite !lookup_alter_if, length_after3.
    rewrite (after3_lookup F hs (L ++ [(i, P)])). rewrite length_app. simpl.
    destruct (decide (k < length F)) as [Hk|Hk].
    + rewrite lookup_app_l by (rewrite length_after3; lia).
      rewrite after3_lookup. rewrite (decide_True (P := k < length F)) by done.
      rewrite (decide_False (P := length F = k)) by lia.
      destruct (F !! k) as [B|] eqn:EB; simpl.
      2:{ by repeat case_decide. }
      assert (map_term (redirect h (length F + 1 + length L))
                (block3 (length F) hs L P B) =
              {| phis := phis (block3 (length F) hs L P B);
                 term := map_slots (rsucc (length F) hs (L ++ [(i, P)]) P) (term B) |})
        as Hterm.
      { unfold map_term, redirect. simpl. f_equal. rewrite map_slots_compose.
        apply map_slots_ext. intros s _. simpl.
        rewrite (rsucc_snoc _ _ _ _ _ _ _ _ Hnd Hi Hh HL). by rewrite (decide_True (P := P = P)). }
      assert (∀ b, b ≠ P →
                map_slots (rsucc (length F) hs L b) (term B) =
                map_slots (rsucc (length F) hs (L ++ [(i, P)]) b) (term B)) as Hterm'.
      { intros b Hb. apply map_slots_ext. intros s _.
        rewrite (rsucc_snoc _ _ _ _ _ _ _ _ Hnd Hi Hh HL). by rewrite (decide_False (P := b = P)). }
      assert (rename_phis (λ b, if decide (b = P) then length F + 1 + length L else b)
                (rename_phis (rblk (length F) L i) (phis B)) =
              rename_phis (rblk (length F) (L ++ [(i, P)]) i) (phis B)) as Hphi.
      { rewrite rename_phis_compose. apply rename_phis_ext. intros b. simpl.
        by rewrite rblk_snoc_same. }
      assert (∀ b, b ≠ h →
                phis (block3 (length F) hs L b B) =
                phis (block3 (length F) hs (L ++ [(i, P)]) b B)) as Hphi'.
      { intros b Hb. simpl. destruct (index_of b hs) as [j|] eqn:Ej; [|done].
        apply rename_phis_ext. intros blk. symmetry. apply rblk_snoc_other.
        intros ->. apply index_of_Some in Ej. congruence. }
      assert (index_of h hs = Some i) as Eh by by apply index_of_lookup.
      destruct (decide (P = k)) as [->|HPk]; destruct (decide (h = k)) as [->|Hhk]; simpl.
      * f_equal. unfold block3, map_term, rename_incoming, map_phis. simpl.
        rewrite Eh. f_equal; [done|].
        unfold redirect. rewrite map_slots_compose. apply map_slots_ext. intros s _. simpl.
        rewrite (rsucc_snoc _ _ _ _ _ _ _ _ Hnd Hi Hh HL). by rewrite (decide_True (P := k = k)).
      * f_equal. rewrite Hterm. unfold block3. f_equal. by apply (Hphi' k).
      * f_equal. unfold block3, rename_incoming, map_phis. simpl. rewrite Eh.
        f_equal; [done|]. by apply Hterm'.
      * f_equal. unfold block3. f_equal; [by apply (Hphi' k)|by apply Hterm'].
    + rewrite (decide_False (P := P = k)) by lia.
      rewrite (decide_False (P := h = k)) by lia.
      destruct (decide (k = length F)) as [->|Hk'].
      * rewrite decide_True by done.
        rewrite lookup_app_l by (rewrite length_after3; lia).
        rewrite after3_lookup, decide_False, decide_True by done. simpl. f_equal.
        unfold addIncoming, dispatcher3, map_phis. simpl. f_equal. f_equal.
        unfold label_phi. rewrite imap_app. simpl. by rewrite Nat.add_0_r.
      * rewrite decide_False by done.
        destruct (decide (k < length F + 1 + length L)) as [Hk2|Hk2].
        -- rewrite lookup_app_l by (rewrite length_after3; lia).
           rewrite after3_lookup, !decide_False, decide_True by done.
           rewrite decide_True by lia. done.
        -- rewrite lookup_app_r by (rewrite length_after3; lia).
           rewrite length_after3.
           destruct (decide (k < length F + 1 + (length L + 1))) as [Hk3|Hk3].
           ++ replace (k - (length F + 1 + length L)) with 0 by lia. done.
           ++ destruct (k - (length F + 1 + length L)) as [|m] eqn:Em; [lia|done].
  - unfold metablocks3. apply list_eq. intros j.
    rewrite list_lookup_insert, !list_lookup_imap, length_imap.
    destruct (decide (i = j)) as [<-|Hij].
    + rewrite Hi. simpl. rewrite decide_True.
      * unfold addForwardBlock. simpl. rewrite fwdset_snoc, decide_True by done.
        by rewrite length_after3.
      * split; [done|]. by eapply lookup_lt_Some.
    + rewrite decide_False by naive_solver. destruct (hs !! j); [|done]. simpl.
      by rewrite fwdset_snoc, decide_False.
Qed.

Lemma fixPredecessor_fold F hs i h : ∀ ps L,
  NoDup hs → hs !! i = Some h → h < length F →
  NoDup ps → (∀ P, P ∈ ps → P < length F ∧ (i, P) ∉ L) →
  foldl (λ V Pred, fixPredecessor V i Pred) (visitor3 F hs L) ps =
  visitor3 F hs (L ++ ((λ P, (i, P)) <$> ps)).
Proof.
  induction ps as [|P ps IH]; intros L Hnd Hi Hh Hps Hall; simpl.
  - by rewrite app_nil_r.
  - apply NoDup_cons in Hps as [HP Hps].
    destruct (Hall P) as [HPlt HPL]; [left|].
    rewrite (fixPredecessor_visitor3 _ _ _ _ _ _ Hnd Hi Hh HPlt HPL).
    rewrite IH; [|done..|].
    + by rewrite <- app_assoc.
    + intros Q HQ. destruct (Hall Q) as [? ?]; [by right|]. split; [done|].
      rewrite elem_of_app, list_elem_of_singleton. intros [?|[= ->]]; done.
Qed.

Lemma elem_of_Preds_lt F h P : P ∈ Preds (MetaBlock_of F h) → P < length F.
Proof. intros [He _]%elem_of_MetaBlock_Preds. by eapply edge_lt. Qed.

Lemma fixPredecessors_visitor3 F hs L i h :
  NoDup hs → hs !! i = Some h → h < length F → (∀ P, (i, P) ∉ L) →
  fixPredecessors (visitor3 F hs L) i = visitor3 F hs (L ++ pairs_of F i h).
Proof.
  intros Hnd Hi Hh HL. unfold fixPredecessors. simpl.
  rewrite (metablocks3_lookup _ _ _ _ _ Hi). unfold predecessors. simpl.
  apply (fixPredecessor_fold _ _ _ h); [done..|apply NoDup_elements|].
  intros P HP%elem_of_elements. split; [by eapply elem_of_Preds_lt|done].
Qed.

Lemma elem_of_pairs_upto F hs i j P :
  (j, P) ∈ mjoin (imap (pairs_of F) (take i hs)) → j < i.
Proof.
  intros (l & Hl & Hin)%list_elem_of_join.
  apply list_elem_of_lookup in Hin as (k & Hk).
  rewrite list_lookup_imap in Hk. destruct (take i hs !! k) as [h|] eqn:Eh; [|done].
  injection Hk as <-. apply lookup_lt_Some in Eh. rewrite length_take in Eh.
  unfold pairs_of in Hl. apply list_elem_of_fmap in Hl as (Q & [= -> ->] & _). lia.
Qed.

Lemma fixPredecessors_fold F hs i :
  NoDup hs → Forall (λ h, h < length F) hs → i ≤ length hs →
  foldl fixPredecessors (visitor3 F hs []) (seq 0 i) =
  visitor3 F hs (mjoin (imap (pairs_of F) (take i hs))).
Proof.
  intros Hnd Hlt. induction i as [|i IH]; intros Hi; [done|].
  rewrite seq_S, foldl_app. simpl. rewrite IH by lia.
  destruct (lookup_lt_is_Some_2 hs i) as [h Hh]; [lia|].
  rewrite (fixPredecessors_visitor3 _ _ _ _ h); [|done..| |].
  - rewrite (take_S_r _ _ _ Hh), imap_app, join_app. simpl.
    rewrite app_nil_r, Nat.add_0_r. rewrite length_take_le by lia. done.
  - rewrite Forall_forall in Hlt. apply Hlt. by eapply list_elem_of_lookup_2.
  - intros P HP%elem_of_pairs_upto. lia.
Qed.

Lemma block3_nil n hs b B : block3 n hs [] b B = B.
Proof.
  destruct B as [ps t]. unfold block3. simpl. f_equal.
  - destruct (index_of b hs); [|done]. rewrite <- (rename_phis_id ps) at 2.
    by apply rename_phis_ext.
  - rewrite <- (map_slots_id t) at 2. apply map_slots_ext. intros s _.
    unfold rsucc. by destruct (index_of s hs).
Qed.

Lemma visitor3_nil F hs :
  visitor3 F hs [] =
  {| VF := F ++ [ {| phis := [ [] ]; term := TSwitch (VPhi (length F) 0) [] |} ];
     MetaBlocks := MetaBlock_of F <$> hs;
     Dispatcher := length F;
     Label := 0;
     Indices := list_to_map (zip hs (seq 0 (length hs))) |}.
Proof.
  unfold visitor3. f_equal.
  - unfold after3. simpl. f_equal.
    apply list_eq. intros k. rewrite list_lookup_imap.
    destruct (F !! k); [|done]. simpl. by rewrite block3_nil.
  - unfold metablocks3. apply list_eq. intros k.
    rewrite list_lookup_imap, list_lookup_fmap. by destruct (hs !! k).
Qed.

Lemma length_after5 F hs L i : length (after5 F hs L i) = length F + 1 + length L.
Proof.
  unfold after5. rewrite !length_app, length_imap, length_replicate. simpl. lia.
Qed.

Lemma after5_lookup F hs L i k :
  after5 F hs L i !! k =
  if decide (k < length F) then block5 F hs L i k <$> F !! k
  else if decide (k = length F) then Some (dispatcher5 F hs L i)
  else if decide (k < length F + 1 + length L) then Some (forward_block (length F))
  else None.
Proof.
  unfold after5. destruct (decide (k < length F)) as [Hlt|Hge].
  - rewrite lookup_app_l by (by rewrite length_imap). by rewrite list_lookup_imap.
  - rewrite lookup_app_r by (rewrite length_imap; lia). rewrite length_imap.
    destruct (decide (k = length F)) as [->|Hne].
    + by rewrite Nat.sub_diag.
    + destruct (k - length F) as [|m] eqn:Em; [lia|]. simpl.
      destruct (decide (k < length F + 1 + length L)).
      * apply lookup_replicate_2. lia.
      * apply lookup_ge_None_2. rewrite length_replicate. lia.
Qed.

Lemma metablocks3_entries F hs L : getEntry <$> metablocks3 F hs L = hs.
Proof.
  unfold metablocks3. apply list_eq. intros k.
  rewrite list_lookup_fmap, list_lookup_imap. by destruct (hs !! k).
Qed.

Lemma after5_0 F hs L :
  alter (set_term (TSwitch (VPhi (length F) 0) hs)) (length F) (after3 F hs L) =
  after5 F hs L 0.
Proof.
  apply list_eq. intros k. rewrite lookup_alter_if, after3_lookup, after5_lookup.
  destruct (decide (k < length F)).
  - rewrite decide_False by lia. destruct (F !! k) as [B|]; [|done]. simpl. f_equal.
  - destruct (decide (k = length F)) as [->|].
    + by rewrite decide_True.
    + rewrite decide_False by done. by case_decide.
Qed.

Lemma dispatch_phis_S F hs L i h :
  hs !! i = Some h →
  dispatch_phis F hs L (S i) = dispatch_phis F hs L i ++ moved3 F L i h.
Proof.
  intros Hi. unfold dispatch_phis. rewrite (take_S_r _ _ _ Hi), imap_app, join_app.
  simpl. rewrite app_nil_r, Nat.add_0_r.
  rewrite length_take_le; [done|]. apply lookup_lt_Some in Hi. lia.
Qed.

Lemma makeDispatchPHIs_after5 F hs L i h M :
  NoDup hs → hs !! i = Some h → h < length F →
  getEntry M = h → forwards M = fwdset (length F) L i →
  makeDispatchPHIs (after5 F hs L i) (length F) M = after5 F hs L (S i).
Proof.
  intros Hnd Hi Hh HE HF. unfold makeDispatchPHIs. rewrite HE, HF.
  assert (index_of h hs = Some i) as Eh by by apply index_of_lookup.
  destruct (lookup_lt_is_Some_2 F h Hh) as [Bh HBh].
  assert (default [] (phis <$> after5 F hs L i !! h) =
          rename_phis (rblk (length F) L i) (phis Bh)) as ->.
  { rewrite after5_lookup, decide_True, HBh by done. simpl. rewrite Eh.
    rewrite decide_False; [done|lia]. }
  assert (length (default [] (phis <$> after5 F hs L i !! length F)) = base F hs L i) as ->.
  { rewrite after5_lookup. rewrite (decide_False (P := length F < length F)) by lia.
    by rewrite (decide_True (P := length F = length F)). }
  apply list_eq. intros k. rewrite !lookup_alter_if, !after5_lookup.
  destruct (decide (k < length F)) as [Hk|Hk].
  - rewrite (decide_False (P := length F = k)) by lia.
    destruct (F !! k) as [B|] eqn:EB; simpl; [|by destruct (decide (h = k))].
    destruct (decide (h = k)) as [<-|Hhk]; simpl; f_equal.
    + assert (B = Bh) as -> by congruence.
      unfold block5, map_phis. simpl. rewrite Eh.
      rewrite (decide_False (P := i < i)) by lia. rewrite decide_True by lia. done.
    + unfold block5. f_equal. destruct (index_of k hs) as [j|] eqn:Ej; [|done].
      assert (j ≠ i).
      { intros ->. apply index_of_Some in Ej. congruence. }
      destruct (decide (j < i)).
      * by rewrite decide_True by lia.
      * by rewrite decide_False by lia.
  - rewrite (decide_False (P := h = k)) by lia.
    destruct (decide (k = length F)) as [->|Hk'].
    + rewrite decide_True by done. simpl. f_equal.
      unfold dispatcher5, map_phis. simpl. f_equal.
      rewrite (dispatch_phis_S _ _ _ _ _ Hi). unfold moved3, phis_of.
      by rewrite HBh.
    + rewrite decide_False by done. by case_decide.
Qed.

Lemma makeDispatchPHIs_fold F hs L i :
  NoDup hs → Forall (λ h, h < length F) hs → i ≤ length hs →
  foldl (λ F' M, makeDispatchPHIs F' (length F) M) (after5 F hs L 0)
        (take i (metablocks3 F hs L)) =
  after5 F hs L i.
Proof.
  intros Hnd Hlt. induction i as [|i IH]; intros Hi; [done|].
  destruct (lookup_lt_is_Some_2 hs i) as [h Hh]; [lia|].
  rewrite (take_S_r _ _ _ (metablocks3_lookup F hs L i h Hh)), foldl_app. simpl.
  rewrite IH by lia. apply (makeDispatchPHIs_after5 _ _ _ _ h); try done.
  rewrite Forall_forall in Hlt. apply Hlt. by eapply list_elem_of_lookup_2.
Qed.

(** The fix operation computes its closed form. *)
Lemma processBlocks_closed F hs :
  NoDup hs → Forall (λ h, h < length F) hs →
  processBlocks F hs =
  {| VF := fixed F hs;
     MetaBlocks := metablocks3 F hs (fwd_pairs F hs);
     Dispatcher := length F;
     Label := 0;
     Indices := list_to_map (zip hs (seq 0 (length hs))) |}.
Proof.
  intros Hnd Hlt. unfold processBlocks.
  rewrite <- visitor3_nil. rewrite (fixPredecessors_fold _ _ _ Hnd Hlt) by done.
  rewrite firstn_all. fold (fwd_pairs F hs). simpl.
  rewrite metablocks3_entries, after5_0. f_equal.
  rewrite <- (firstn_all (metablocks3 F hs (fwd_pairs F hs))).
  rewrite (makeDispatchPHIs_fold _ _ _ _ Hnd Hlt).
  - unfold fixed, metablocks3. by rewrite length_imap.
  - unfold metablocks3. by rewrite length_imap.
Qed.

(** ** The forwarding pairs *)

Lemma fwd_pairs_take F hs : fwd_pairs F hs = mjoin (imap (pairs_of F) (take (length hs) hs)).
Proof. by rewrite firstn_all. Qed.

Lemma pairs_upto_S F hs i h :
  hs !! i = Some h →
  mjoin (imap (pairs_of F) (take (S i) hs)) =
  mjoin (imap (pairs_of F) (take i hs)) ++ pairs_of F i h.
Proof.
  intros Hi. rewrite (take_S_r _ _ _ Hi), imap_app, join_app. simpl.
  rewrite app_nil_r, Nat.add_0_r. rewrite length_take_le; [done|].
  apply lookup_lt_Some in Hi. lia.
Qed.

Lemma elem_of_pairs_upto_iff F hs i j P :
  i ≤ length hs →
  (j, P) ∈ mjoin (imap (pairs_of F) (take i hs)) ↔
  j < i ∧ ∃ h, hs !! j = Some h ∧ P ∈ Preds (MetaBlock_of F h).
Proof.
  induction i as [|i IH]; intros Hi.
  - simpl. rewrite elem_of_nil. split; [done|]. intros [? _]. lia.
  - destruct (lookup_lt_is_Some_2 hs i) as [h Hh]; [lia|].
    rewrite (pairs_upto_S _ _ _ _ Hh), elem_of_app, IH by lia.
    unfold pairs_of. rewrite list_elem_of_fmap. setoid_rewrite elem_of_elements.
    split.
    + intros [[? ?]|(Q & [= -> ->] & HQ)]; [split; [lia|done]|].
      split; [lia|]. eauto.
    + intros [Hj (h' & Hh' & HP)]. destruct (decide (j = i)) as [->|].
      * right. exists P. split; [done|]. congruence.
      * left. split; [lia|]. eauto.
Qed.

Lemma elem_of_fwd_pairs F hs i P :
  (i, P) ∈ fwd_pairs F hs ↔ ∃ h, hs !! i = Some h ∧ P ∈ Preds (MetaBlock_of F h).
Proof.
  rewrite fwd_pairs_take, elem_of_pairs_upto_iff by done. split.
  - by intros [_ ?].
  - intros (h & Hh & HP). split; [by eapply lookup_lt_Some|eauto].
Qed.

Lemma NoDup_pairs_upto F hs i :
  i ≤ length hs → NoDup (mjoin (imap (pairs_of F) (take i hs))).
Proof.
  induction i as [|i IH]; intros Hi; [constructor|].
  destruct (lookup_lt_is_Some_2 hs i) as [h Hh]; [lia|].
  rewrite (pairs_upto_S _ _ _ _ Hh). apply NoDup_app. split_and!.
  - apply IH. lia.
  - intros [j P] Hin%elem_of_pairs_upto. unfold pairs_of.
    intros (Q & [= -> ->] & _)%list_elem_of_fmap. lia.
  - unfold pairs_of. apply NoDup_fmap_2; [|apply NoDup_elements].
    by intros ?? [=].
Qed.

Lemma NoDup_fwd_pairs F hs : NoDup (fwd_pairs F hs).
Proof. rewrite fwd_pairs_take. by apply NoDup_pairs_upto. Qed.

Lemma index_of_fwd_pairs F hs i P :
  is_Some (index_of (i, P) (fwd_pairs F hs)) ↔
  ∃ h, hs !! i = Some h ∧ P ∈ Preds (MetaBlock_of F h).
Proof.
  rewrite <- elem_of_fwd_pairs. destruct (index_of (i, P) (fwd_pairs F hs)) eqn:E.
  - split; [|by eauto]. intros _. apply index_of_Some in E.
    by eapply list_elem_of_lookup_2.
  - split; [by intros [? [=]]|]. intros Hin. by apply index_of_None in E.
Qed.

(** ** The blocks of the fixed function *)

Section fixed.
Context (F : list Block) (hs : list nat).
Context (Hnd : NoDup hs) (Hhs : Forall (λ h, h < length F) hs).

Lemma length_fixed : length (fixed F hs) = length F + 1 + length (fwd_pairs F hs).
Proof. apply length_after5. Qed.

Lemma fixed_lookup_old b B :
  F !! b = Some B →
  fixed F hs !! b = Some (block5 F hs (fwd_pairs F hs) (length hs) b B).
Proof.
  intros HB. unfold fixed. rewrite after5_lookup, decide_True, HB; [done|].
  by eapply lookup_lt_Some.
Qed.

Lemma fixed_lookup_dispatcher :
  fixed F hs !! length F = Some (dispatcher5 F hs (fwd_pairs F hs) (length hs)).
Proof.
  unfold fixed. rewrite after5_lookup, decide_False by lia. by rewrite decide_True.
Qed.

Lemma fixed_lookup_forward k :
  k < length (fwd_pairs F hs) →
  fixed F hs !! (length F + 1 + k) = Some (forward_block (length F)).
Proof.
  intros Hk. unfold fixed. rewrite after5_lookup, !decide_False by lia.
  by rewrite decide_True by lia.
Qed.

Lemma succ_list_fixed_old b :
  b < length F →
  succ_list (fixed F hs) b = rsucc (length F) hs (fwd_pairs F hs) b <$> succ_list F b.
Proof.
  intros Hb. destruct (lookup_lt_is_Some_2 F b Hb) as [B HB].
  unfold succ_list. rewrite (fixed_lookup_old _ _ HB), HB. simpl. by destruct (term B).
Qed.

Lemma succ_list_fixed_dispatcher : succ_list (fixed F hs) (length F) = hs.
Proof. unfold succ_list. by rewrite fixed_lookup_dispatcher. Qed.

Lemma succ_list_fixed_forward k :
  k < length (fwd_pairs F hs) →
  succ_list (fixed F hs) (length F + 1 + k) = [length F].
Proof. intros Hk. unfold succ_list. by rewrite fixed_lookup_forward. Qed.

Lemma phis_of_fixed_other b :
  b < length F → b ∉ hs → phis_of (fixed F hs) b = phis_of F b.
Proof.
  intros Hb Hnin. destruct (lookup_lt_is_Some_2 F b Hb) as [B HB].
  unfold phis_of. rewrite (fixed_lookup_old _ _ HB), HB. simpl.
  apply index_of_None in Hnin. by rewrite Hnin.
Qed.

Lemma phis_of_fixed_header i h :
  hs !! i = Some h →
  phis_of (fixed F hs) h =
  imap (λ q P, kept_entries (fwdset (length F) (fwd_pairs F hs) i) P
                 ++ [(length F, VPhi (length F) (base F hs (fwd_pairs F hs) i + q))])
       (rename_phis (rblk (length F) (fwd_pairs F hs) i) (phis_of F h)).
Proof.
  intros Hi. assert (h < length F) as Hh.
  { rewrite Forall_forall in Hhs. apply Hhs. by eapply list_elem_of_lookup_2. }
  destruct (lookup_lt_is_Some_2 F h Hh) as [B HB].
  unfold phis_of. rewrite (fixed_lookup_old _ _ HB), HB. simpl.
  rewrite (index_of_lookup _ _ _ Hnd Hi). rewrite decide_True; [done|].
  by eapply lookup_lt_Some.
Qed.

Lemma phis_of_fixed_dispatcher :
  phis_of (fixed F hs) (length F) =
  label_phi (length F) (fwd_pairs F hs)
    :: dispatch_phis F hs (fwd_pairs F hs) (length hs).
Proof. unfold phis_of. by rewrite fixed_lookup_dispatcher. Qed.

Lemma phis_of_fixed_forward k :
  k < length (fwd_pairs F hs) → phis_of (fixed F hs) (length F + 1 + k) = [].
Proof. intros Hk. unfold phis_of. by rewrite fixed_lookup_forward. Qed.
End fixed.

(** ** Well-formed functions *)

Lemma wf_lookup F b B : wf F → F !! b = Some B → block_ok (length F) B.
Proof. intros Hwf HB. unfold wf in Hwf. rewrite Forall_forall in Hwf. apply Hwf. by eapply list_elem_of_lookup_2. Qed.

Lemma term_ok_successors n t s : term_ok n t → s ∈ successors t → s < n.
Proof.
  destruct t; simpl.
  - intros H Hs. rewrite Forall_forall in H. auto.
  - intros [_ H] Hs. rewrite Forall_forall in H. auto.
Qed.

Lemma wf_succ F b s : wf F → s ∈ succ_list F b → s < length F.
Proof.
  intros Hwf. unfold succ_list. destruct (F !! b) as [B|] eqn:HB.
  - apply term_ok_successors. by apply (wf_lookup _ _ _ Hwf HB).
  - by intros ?%elem_of_nil.
Qed.

Lemma wf_edge F a b : wf F → edge F a b → a < length F ∧ b < length F.
Proof. intros Hwf He. split; [by eapply edge_lt|by eapply wf_succ]. Qed.

Lemma wf_phi_entry F b P e :
  wf F → P ∈ phis_of F b → e ∈ P → e.1 < length F ∧ value_ok (length F) e.2.
Proof.
  intros Hwf. unfold phis_of. destruct (F !! b) as [B|] eqn:HB; simpl.
  - destruct (wf_lookup _ _ _ Hwf HB) as [_ Hphis].
    rewrite Forall_forall in Hphis. intros HP He. specialize (Hphis _ HP).
    rewrite Forall_forall in Hphis. by apply Hphis.
  - by intros ?%elem_of_nil.
Qed.

Lemma incoming_for_ok n (P : list (nat * Value)) pred :
  (∀ e, e ∈ P → value_ok n e.2) → value_ok n (incoming_for P pred).
Proof.
  induction P as [|e P IH]; intros HP; simpl; [done|].
  destruct (decide (e.1 = pred)).
  - apply HP. left.
  - apply IH. intros e' He'. apply HP. by right.
Qed.

Lemma eval_agree n env env' v :
  value_ok n v → env_agree n env env' → eval env v = eval env' v.
Proof. destruct v; simpl; auto. Qed.

(** ** Phi entries after the fix *)

Lemma elem_of_fwdset n L i x :
  x ∈ fwdset n L i ↔ ∃ k P, x = n + 1 + k ∧ L !! k = Some (i, P).
Proof.
  unfold fwdset. rewrite elem_of_list_to_set, list_elem_of_join. split.
  - intros (l & Hx & Hl). apply list_elem_of_lookup in Hl as (k & Hk).
    rewrite list_lookup_imap in Hk. destruct (L !! k) as [[j P]|] eqn:E; [|done].
    simpl in Hk. injection Hk as <-. destruct (decide (j = i)) as [->|]; simpl in Hx.
    + apply list_elem_of_singleton in Hx as ->. eauto.
    + by apply elem_of_nil in Hx.
  - intros (k & P & -> & Hk). exists [n + 1 + k]. split; [by apply list_elem_of_singleton|].
    apply list_elem_of_lookup. exists k. rewrite list_lookup_imap, Hk. simpl.
    by rewrite decide_True.
Qed.

Lemma rblk_in_fwdset n L i blk :
  blk < n → rblk n L i blk ∈ fwdset n L i ↔ is_Some (index_of (i, blk) L).
Proof.
  intros Hblk. unfold rblk. rewrite elem_of_fwdset.
  destruct (index_of (i, blk) L) as [k|] eqn:E.
  - split; [by eauto|]. intros _. exists k, blk. split; [done|]. by apply index_of_Some.
  - split; [|by intros [? [=]]]. intros (k & P & ? & _). lia.
Qed.

Lemma incoming_kept n L i (P : list (nat * Value)) cur v :
  (∀ e, e ∈ P → e.1 < n) → cur < n → index_of (i, cur) L = None →
  incoming_for
    (kept_entries (fwdset n L i) ((λ e, (rblk n L i e.1, e.2)) <$> P) ++ [(n, v)]) cur =
  incoming_for P cur.
Proof.
  intros HP Hcur Hidx. unfold kept_entries.
  induction P as [|e P IH]; simpl.
  - rewrite decide_False; [done|lia].
  - assert (e.1 < n) as He by (apply HP; left).
    rewrite filter_cons. simpl.
    destruct (decide (rblk n L i e.1 ∉ fwdset n L i)) as [Hk|Hk].
    + simpl. assert (rblk n L i e.1 = e.1) as ->.
      { unfold rblk. destruct (index_of (i, e.1) L) eqn:E; [|done].
        exfalso. apply Hk. apply rblk_in_fwdset; [done|]. by rewrite E. }
      destruct (decide (e.1 = cur)); [done|]. apply IH. intros e' He'. apply HP. by right.
    + apply dec_stable in Hk. apply rblk_in_fwdset in Hk as [k Ek]; [|done].
      rewrite decide_False by congruence. apply IH. intros e' He'. apply HP. by right.
Qed.

Lemma incoming_kept_dispatcher n L i (P : list (nat * Value)) v :
  (∀ e, e ∈ P → e.1 < n) →
  incoming_for
    (kept_entries (fwdset n L i) ((λ e, (rblk n L i e.1, e.2)) <$> P) ++ [(n, v)]) n = v.
Proof.
  intros HP. unfold kept_entries.
  induction P as [|e P IH]; simpl.
  - by rewrite decide_True.
  - assert (e.1 < n) as He by (apply HP; left).
    rewrite filter_cons. simpl.
    destruct (decide (rblk n L i e.1 ∉ fwdset n L i)) as [Hk|Hk].
    + simpl. assert (rblk n L i e.1 = e.1) as ->.
      { unfold rblk. destruct (index_of (i, e.1) L) eqn:E; [|done].
        exfalso. apply Hk. apply rblk_in_fwdset; [done|]. by rewrite E. }
      rewrite decide_False by lia. apply IH. intros e' He'. apply HP. by right.
    + apply IH. intros e' He'. apply HP. by right.
Qed.

Lemma incoming_moved n L i (P : list (nat * Value)) cur k :
  (∀ e, e ∈ P → e.1 < n) → index_of (i, cur) L = Some k →
  incoming_for
    (moved_entries (fwdset n L i) ((λ e, (rblk n L i e.1, e.2)) <$> P)) (n + 1 + k) =
  incoming_for P cur.
Proof.
  intros HP Hidx. unfold moved_entries.
  induction P as [|e P IH]; simpl; [done|].
  assert (e.1 < n) as He by (apply HP; left).
  rewrite filter_cons. simpl.
  destruct (decide (rblk n L i e.1 ∈ fwdset n L i)) as [Hk|Hk].
  - simpl. apply rblk_in_fwdset in Hk as [k' Ek']; [|done].
    assert (rblk n L i e.1 = n + 1 + k') as -> by (unfold rblk; by rewrite Ek').
    destruct (decide (e.1 = cur)) as [Heq|Hne].
    + rewrite decide_True; [done|]. rewrite Heq in Ek'. assert (k' = k) by congruence. lia.
    + rewrite decide_False; [apply IH; intros e' He'; apply HP; by right|].
      intros Heq. assert (k' = k) as -> by lia.
      apply index_of_Some in Ek', Hidx. congruence.
  - rewrite decide_False.
    + apply IH. intros e' He'. apply HP. by right.
    + intros Heq. apply Hk. apply rblk_in_fwdset; [done|]. by rewrite Heq, Hidx.
Qed.

Lemma incoming_imap_offset {A} (g : A → Value) (l : list A) a k x :
  l !! k = Some x →
  incoming_for (imap (λ j e, (a + j, g e)) l) (a + k) = g x.
Proof.
  revert a k. induction l as [|y l IH]; intros a k; [done|].
  destruct k as [|k]; simpl.
  - intros [= ->]. by rewrite decide_True by lia.
  - intros Hk. rewrite decide_False by lia.
    rewrite <- (IH (S a) k Hk). f_equal; [|lia].
    apply imap_ext. intros j e _. simpl. f_equal. lia.
Qed.

Lemma incoming_label n L k i P :
  L !! k = Some (i, P) → incoming_for (label_phi n L) (n + 1 + k) = VConst i.
Proof.
  intros Hk. unfold label_phi.
  by rewrite (incoming_imap_offset (λ e, VConst e.1) L (n + 1) k _ Hk).
Qed.

(** ** Executions of the fixed function *)

Lemma run_cons F env cur s p tr :
  run F env cur (s :: p) = Some tr ↔
  can_step F env cur s ∧
  ∃ tr0, run F (enter F env cur s) s p = Some tr0 ∧ tr = (s, selected F env cur s) :: tr0.
Proof.
  simpl. destruct (decide (can_step F env cur s)) as [Hs|Hs].
  - destruct (run F (enter F env cur s) s p) as [tr0|]; simpl.
    + split; [intros [= <-]; eauto|]. by intros (_ & tr1 & [= <-] & ->).
    + split; [done|]. by intros (_ & tr1 & [=] & _).
  - split; [done|]. by intros [? _].
Qed.

Lemma can_step_succ F env cur s : can_step F env cur s → s ∈ succ_list F cur.
Proof.
  unfold can_step, succ_list. destruct (F !! cur) as [B|]; simpl; [|done].
  destruct (term B) as [l|c l]; simpl; [done|].
  destruct (eval env c); try done. intros H. by eapply list_elem_of_lookup_2.
Qed.

Lemma enter_agree n F F' env env' cur cur' s :
  env_agree n env env' →
  selected F' env' cur' s = selected F env cur s →
  env_agree n (enter F env cur s) (enter F' env' cur' s).
Proof.
  intros Hag Hsel b i Hb. unfold enter. rewrite Hsel.
  destruct (decide (b = s)); [|by apply Hag].
  destruct (selected F env cur s !! i); simpl; [done|by apply Hag].
Qed.

Section simulation.
Context (F : list Block) (hs : list nat).
Context (Hnd : NoDup hs) (Hhs : Forall (λ h, h < length F) hs) (Hwf : wf F).

Local Notation n := (length F).
Local Notation L := (fwd_pairs F hs).
Local Notation F' := (fixed F hs).

Lemma rsucc_cases b s :
  (rsucc n hs L b s = s ∧ ∀ i, hs !! i = Some s → index_of (i, b) L = None) ∨
  (∃ i k, hs !! i = Some s ∧ index_of (i, b) L = Some k ∧ rsucc n hs L b s = n + 1 + k).
Proof.
  unfold rsucc. destruct (index_of s hs) as [i|] eqn:Ei.
  - destruct (index_of (i, b) L) as [k|] eqn:Ek.
    + right. exists i, k. split_and!; [by apply index_of_Some|done..].
    + left. split; [done|]. intros i' Hi'.
      rewrite (index_of_lookup _ _ _ Hnd Hi') in Ei. by injection Ei as ->.
  - left. split; [done|]. intros i Hi. apply index_of_None in Ei.
    exfalso. apply Ei. by eapply list_elem_of_lookup_2.
Qed.

Lemma can_step_fwd env env' cur s :
  cur < n → env_agree n env env' → can_step F env cur s →
  can_step F' env' cur (rsucc n hs L cur s).
Proof.
  intros Hcur Hag. unfold can_step.
  destruct (lookup_lt_is_Some_2 F cur Hcur) as [B HB].
  rewrite (fixed_lookup_old _ _ _ _ HB), HB. simpl.
  pose proof (wf_lookup _ _ _ Hwf HB) as [Hterm _].
  destruct (term B) as [l|c l]; simpl.
  - apply list_elem_of_fmap_2.
  - destruct Hterm as [Hc _]. rewrite <- (eval_agree _ _ _ _ Hc Hag).
    destruct (eval env c); try done. rewrite list_lookup_fmap. by intros ->.
Qed.

Lemma can_step_bwd env env' cur s' :
  cur < n → env_agree n env env' → can_step F' env' cur s' →
  ∃ s, can_step F env cur s ∧ s' = rsucc n hs L cur s.
Proof.
  intros Hcur Hag. unfold can_step.
  destruct (lookup_lt_is_Some_2 F cur Hcur) as [B HB].
  rewrite (fixed_lookup_old _ _ _ _ HB), HB. simpl.
  pose proof (wf_lookup _ _ _ Hwf HB) as [Hterm _].
  destruct (term B) as [l|c l]; simpl.
  - intros (s & -> & Hs)%list_elem_of_fmap. eauto.
  - destruct Hterm as [Hc _]. rewrite <- (eval_agree _ _ _ _ Hc Hag).
    destruct (eval env c) as [m| | |]; try done. rewrite list_lookup_fmap.
    destruct (l !! m) as [s|]; [|done]. simpl. intros [= <-]. eauto.
Qed.

Lemma phi_entries_lt b P e : P ∈ phis_of F b → e ∈ P → e.1 < n.
Proof. intros HP He. by destruct (wf_phi_entry _ _ _ _ Hwf HP He). Qed.

Lemma eval_incoming_agree env env' b P pred :
  env_agree n env env' → P ∈ phis_of F b →
  eval env (incoming_for P pred) = eval env' (incoming_for P pred).
Proof.
  intros Hag HP. apply (eval_agree n); [|done]. apply incoming_for_ok.
  intros e He. by destruct (wf_phi_entry _ _ _ _ Hwf HP He).
Qed.

(** A step along an edge the fix left in place selects the same values. *)
Lemma selected_keep env env' cur s :
  cur < n → s < n → env_agree n env env' →
  (∀ i, hs !! i = Some s → index_of (i, cur) L = None) →
  selected F' env' cur s = selected F env cur s.
Proof.
  intros Hcur Hs Hag Hkeep. unfold selected.
  destruct (decide (s ∈ hs)) as [Hin|Hnin].
  - apply list_elem_of_lookup in Hin as [i Hi].
    rewrite (phis_of_fixed_header _ _ Hnd Hhs _ _ Hi).
    apply list_eq. intros q. rewrite !list_lookup_fmap, list_lookup_imap.
    unfold rename_phis. rewrite list_lookup_fmap.
    destruct (phis_of F s !! q) as [P|] eqn:EP; [|done]. simpl. f_equal.
    assert (P ∈ phis_of F s) as HP by by eapply list_elem_of_lookup_2.
    rewrite incoming_kept; [|by eauto using phi_entries_lt|done|by apply Hkeep].
    symmetry. by eapply eval_incoming_agree.
  - rewrite phis_of_fixed_other by done.
    apply list_fmap_ext. intros q P HP. symmetry.
    eapply eval_incoming_agree; [done|]. by eapply list_elem_of_lookup_2.
Qed.
End simulation.

Lemma eval_ext (env env' : nat → nat → Value) v :
  (∀ b i, env b i = env' b i) → eval env v = eval env' v.
Proof. intros H. destruct v; simpl; auto. Qed.

Lemma dispatch_phis_prefix F hs L j1 j2 :
  j1 ≤ j2 → ∃ X, dispatch_phis F hs L j2 = dispatch_phis F hs L j1 ++ X.
Proof.
  induction j2 as [|j IH]; intros Hle.
  - assert (j1 = 0) as -> by lia. exists []. by rewrite app_nil_r.
  - destruct (decide (j1 = S j)) as [->|]; [exists []; by rewrite app_nil_r|].
    destruct IH as [X HX]; [lia|].
    destruct (hs !! j) as [h|] eqn:Eh.
    + exists (X ++ moved3 F L j h). by rewrite (dispatch_phis_S _ _ _ _ _ Eh), HX, app_assoc.
    + exists X. rewrite <- HX. unfold dispatch_phis.
      apply lookup_ge_None in Eh. by rewrite !take_ge by lia.
Qed.

Lemma length_moved3 F L i h : length (moved3 F L i h) = length (phis_of F h).
Proof. unfold moved3, rename_phis. by rewrite !length_fmap. Qed.

Lemma dispatch_phis_lookup F hs L i h q :
  hs !! i = Some h → q < length (phis_of F h) →
  dispatch_phis F hs L (length hs) !! (length (dispatch_phis F hs L i) + q) =
  moved3 F L i h !! q.
Proof.
  intros Hi Hq. destruct (dispatch_phis_prefix F hs L (S i) (length hs)) as [X ->].
  { apply lookup_lt_Some in Hi. lia. }
  rewrite (dispatch_phis_S _ _ _ _ _ Hi), <- app_assoc.
  rewrite lookup_app_r by lia. replace (_ + q - _) with q by lia.
  apply lookup_app_l. by rewrite length_moved3.
Qed.

Section reroute.
Context (F : list Block) (hs : list nat).
Context (Hnd : NoDup hs) (Hhs : Forall (λ h, h < length F) hs) (Hwf : wf F).
Context (cur s i k : nat).
Context (Hcur : cur < length F) (Hi : hs !! i = Some s).
Context (Hk : index_of (i, cur) (fwd_pairs F hs) = Some k).

Local Notation n := (length F).
Local Notation L := (fwd_pairs F hs).
Local Notation F' := (fixed F hs).
Local Notation fwd := (length F + 1 + k).

Lemma reroute_k_lt : k < length L.
Proof. by eapply index_of_lt. Qed.

Lemma enter_forward (env : nat → nat → Value) pred b j :
  enter F' env pred fwd b j = env b j.
Proof.
  unfold enter, selected. rewrite phis_of_fixed_forward by apply reroute_k_lt.
  simpl. by destruct (decide (b = fwd)).
Qed.

Lemma can_step_forward (env : nat → nat → Value) s2 :
  can_step F' env fwd s2 ↔ s2 = n.
Proof.
  unfold can_step. rewrite fixed_lookup_forward by apply reroute_k_lt.
  simpl. apply list_elem_of_singleton.
Qed.

Lemma selected_dispatcher (env : nat → nat → Value) :
  selected F' env fwd n =
  VConst i :: ((λ P, eval env (incoming_for P fwd)) <$> dispatch_phis F hs L (length hs)).
Proof.
  unfold selected. rewrite phis_of_fixed_dispatcher. simpl. f_equal.
  erewrite incoming_label; [done|]. by apply index_of_Some.
Qed.

Lemma enter_dispatcher_label (env : nat → nat → Value) :
  enter F' env fwd n n 0 = VConst i.
Proof. unfold enter. rewrite decide_True by done. by rewrite selected_dispatcher. Qed.

Lemma enter_dispatcher_old (env : nat → nat → Value) b j :
  b < n → enter F' env fwd n b j = env b j.
Proof. intros Hb. unfold enter. rewrite decide_False; [done|lia]. Qed.

Lemma enter_dispatcher_phi (env : nat → nat → Value) q P :
  phis_of F s !! q = Some P →
  enter F' env fwd n n (base F hs L i + q) = eval env (incoming_for P cur).
Proof.
  intros HP. unfold enter. rewrite decide_True by done.
  rewrite selected_dispatcher. unfold base. simpl.
  rewrite list_lookup_fmap, (dispatch_phis_lookup _ _ _ _ s) by
    (done || by eapply lookup_lt_Some).
  unfold moved3, rename_phis. rewrite !list_lookup_fmap, HP. simpl. f_equal.
  apply incoming_moved; [|done]. intros e He.
  eapply (phi_entries_lt F Hwf s P); [|done]. by eapply list_elem_of_lookup_2.
Qed.

Lemma can_step_dispatcher (env : nat → nat → Value) s3 :
  env n 0 = VConst i → can_step F' env n s3 ↔ s3 = s.
Proof.
  intros Hl. unfold can_step. rewrite fixed_lookup_dispatcher. simpl. rewrite Hl, Hi.
  split; [by intros [= ->]|by intros ->].
Qed.

Lemma selected_header (env env2 : nat → nat → Value) :
  (∀ q P, phis_of F s !! q = Some P →
     env2 n (base F hs L i + q) = eval env (incoming_for P cur)) →
  selected F' env2 n s = selected F env cur s.
Proof.
  intros Henv. unfold selected. rewrite (phis_of_fixed_header _ _ Hnd Hhs _ _ Hi).
  apply list_eq. intros q. rewrite !list_lookup_fmap, list_lookup_imap.
  unfold rename_phis. rewrite list_lookup_fmap.
  destruct (phis_of F s !! q) as [P|] eqn:EP; [|done]. simpl. f_equal.
  rewrite incoming_kept_dispatcher.
  - simpl. by apply Henv.
  - intros e He. eapply (phi_entries_lt F Hwf s P); [|done].
    by eapply list_elem_of_lookup_2.
Qed.

(** The three steps that replace a rerouted edge. *)
Lemma reroute_steps (env env' : nat → nat → Value) :
  env_agree n env env' →
  let env1 := enter F' env' cur fwd in
  let env2 := enter F' env1 fwd n in
  let env3 := enter F' env2 n s in
  selected F' env' cur fwd = [] ∧
  can_step F' env2 n s ∧
  selected F' env2 n s = selected F env cur s ∧
  env_agree n (enter F env cur s) env3.
Proof.
  intros Hag env1 env2 env3.
  assert (selected F' env2 n s = selected F env cur s) as Hsel.
  { apply selected_header. intros q P HP. unfold env2.
    rewrite (enter_dispatcher_phi _ _ _ HP).
    assert (P ∈ phis_of F s) as HP' by by eapply list_elem_of_lookup_2.
    rewrite (eval_incoming_agree F Hwf env env' s P cur Hag HP').
    apply eval_ext. intros b j. apply enter_forward. }
  split_and!.
  - unfold selected. by rewrite phis_of_fixed_forward by apply reroute_k_lt.
  - apply can_step_dispatcher; [apply enter_dispatcher_label|done].
  - done.
  - apply enter_agree; [|done]. intros b j Hb. unfold env2.
    rewrite enter_dispatcher_old by done. unfold env1. rewrite enter_forward.
    by apply Hag.
Qed.
End reroute.

Section fix_preserves.
Context (F : list Block) (hs : list nat).
Context (Hnd : NoDup hs) (Hhs : Forall (λ h, h < length F) hs) (Hwf : wf F).

Local Notation n := (length F).
Local Notation L := (fwd_pairs F hs).
Local Notation F' := (fixed F hs).

(** Every execution of the function is an execution of the fixed function,
    with a detour through a forwarding block and the dispatcher at each
    rerouted edge, and the same selections in the blocks of the function. *)
Lemma fix_sim_fwd p : ∀ cur (env env' : nat → nat → Value) tr,
  cur < n → env_agree n env env' → run F env cur p = Some tr →
  ∃ p' tr', run F' env' cur p' = Some tr' ∧ original n tr' = tr.
Proof.
  induction p as [|s p IH]; intros cur env env' tr Hcur Hag Hrun.
  - injection Hrun as <-. by exists [], [].
  - apply run_cons in Hrun as (Hstep & tr0 & Hrun0 & ->).
    assert (s < n) as Hs by (eapply wf_succ; [done|by eapply can_step_succ]).
    pose proof (can_step_fwd F hs Hwf env env' cur s Hcur Hag Hstep) as Hstep'.
    destruct (rsucc_cases F hs Hnd cur s) as [[Hrs Hkeep]|(i & k & Hi & Hk & Hrs)].
    + rewrite Hrs in Hstep'.
      pose proof (selected_keep F hs Hnd Hhs Hwf env env' cur s Hcur Hs Hag Hkeep) as Hsel.
      destruct (IH s (enter F env cur s) (enter F' env' cur s) tr0 Hs)
        as (p' & tr' & Hrun' & Htr'); [by apply enter_agree|done|].
      exists (s :: p'), ((s, selected F env cur s) :: tr'). split.
      * apply run_cons. split; [done|]. exists tr'. by rewrite Hsel.
      * unfold original. rewrite filter_cons_True by done. by f_equal.
    + rewrite Hrs in Hstep'.
      destruct (reroute_steps F hs Hnd Hhs Hwf cur s i k Hcur Hi Hk env env' Hag)
        as (Hs1 & Hs2 & Hs3 & Hag3).
      destruct (IH s _ _ tr0 Hs Hag3 Hrun0) as (p' & tr' & Hrun' & Htr').
      eexists (_ :: n :: s :: p'), (_ :: _ :: (s, selected F env cur s) :: tr'). split.
      * apply run_cons. split; [exact Hstep'|]. eexists. split; [|done].
        apply run_cons. split; [by eapply can_step_forward|]. eexists. split; [|done].
        apply run_cons. split; [exact Hs2|]. exists tr'. by rewrite Hs3.
      * unfold original. rewrite filter_cons_False by (simpl; lia).
        rewrite filter_cons_False by (simpl; lia).
        rewrite filter_cons_True by done. by f_equal.
Qed.

(** Every execution of the fixed function is, once the forwarding blocks
    and the dispatcher are left out, an execution of the function. *)
Lemma fix_sim_bwd m : ∀ p' cur (env env' : nat → nat → Value) tr',
  length p' ≤ m → cur < n → env_agree n env env' → run F' env' cur p' = Some tr' →
  ∃ p, run F env cur p = Some (original n tr').
Proof.
  induction m as [|m IH]; intros p' cur env env' tr' Hlen Hcur Hag Hrun.
  { destruct p'; [|simpl in Hlen; lia]. injection Hrun as <-. by exists []. }
  destruct p' as [|s' p']; [injection Hrun as <-; by exists []|].
  apply run_cons in Hrun as (Hstep' & tr0 & Hrun0 & ->).
  destruct (can_step_bwd F hs Hwf env env' cur s' Hcur Hag Hstep') as (s & Hstep & ->).
  assert (s < n) as Hs by (eapply wf_succ; [done|by eapply can_step_succ]).
  destruct (rsucc_cases F hs Hnd cur s) as [[Hrs Hkeep]|(i & k & Hi & Hk & Hrs)].
  - rewrite Hrs in *.
    pose proof (selected_keep F hs Hnd Hhs Hwf env env' cur s Hcur Hs Hag Hkeep) as Hsel.
    destruct (IH p' s (enter F env cur s) (enter F' env' cur s) tr0)
      as (p & Hrun); [simpl in Hlen; lia|done|by apply enter_agree|done|].
    exists (s :: p). unfold original. rewrite filter_cons_True by done.
    apply run_cons. split; [done|]. eexists. split; [exact Hrun|]. by rewrite Hsel.
  - rewrite Hrs in *.
    destruct (reroute_steps F hs Hnd Hhs Hwf cur s i k Hcur Hi Hk env env' Hag)
      as (Hs1 & Hs2 & Hs3 & Hag3).
    unfold original. rewrite filter_cons_False by (simpl; lia).
    destruct p' as [|s2 p']; [injection Hrun0 as <-; by exists []|].
    apply run_cons in Hrun0 as (Hstep2 & tr1 & Hrun1 & ->).
    apply (can_step_forward F hs cur i k Hk) in Hstep2 as ->.
    rewrite filter_cons_False by (simpl; lia).
    destruct p' as [|s3 p']; [injection Hrun1 as <-; by exists []|].
    apply run_cons in Hrun1 as (Hstep3 & tr2 & Hrun2 & ->).
    apply (can_step_dispatcher F hs s i Hi) in Hstep3 as ->;
      [|by eapply enter_dispatcher_label].
    destruct (IH p' s _ _ tr2 ltac:(simpl in Hlen; lia) Hs Hag3 Hrun2) as (p & Hrun).
    exists (s :: p). rewrite filter_cons_True by done.
    apply run_cons. split; [done|]. eexists. split; [exact Hrun|]. by rewrite Hs3.
Qed.
End fix_preserves.

(** ** The fix operation keeps the function well formed *)

Lemma value_ok_mono n n' v : n ≤ n' → value_ok n v → value_ok n' v.
Proof. destruct v; simpl; lia. Qed.

Lemma rsucc_lt n hs L b s : s < n → rsucc n hs L b s < n + 1 + length L.
Proof.
  intros Hs. unfold rsucc. destruct (index_of s hs); [|lia].
  destruct (index_of (n0, b) L) eqn:E; [|lia]. apply index_of_lt in E. lia.
Qed.

Lemma rblk_lt n L i blk : blk < n → rblk n L i blk < n + 1 + length L.
Proof.
  intros Hs. unfold rblk. destruct (index_of (i, blk) L) eqn:E; [|lia].
  apply index_of_lt in E. lia.
Qed.

Lemma renamed_entries_ok n L i (P : list (nat * Value)) :
  Forall (entry_ok n) P →
  Forall (entry_ok (n + 1 + length L)) ((λ e, (rblk n L i e.1, e.2)) <$> P).
Proof.
  intros HP. apply Forall_fmap. eapply Forall_impl; [done|].
  intros e [He1 He2]. split; simpl; [by apply rblk_lt|].
  eapply value_ok_mono; [|done]. lia.
Qed.

Lemma filter_Forall {A} (P Q : A → Prop) `{∀ x, Decision (Q x)} (l : list A) :
  Forall P l → Forall P (filter Q l).
Proof.
  rewrite !Forall_forall. intros Hl x [_ Hx]%list_elem_of_filter. by apply Hl.
Qed.

Lemma wf_fixed F hs :
  NoDup hs → Forall (λ h, h < length F) hs → wf F → wf (fixed F hs).
Proof.
  intros Hnd Hhs Hwf. unfold wf. rewrite length_fixed.
  set (n := length F). set (L := fwd_pairs F hs).
  assert (∀ b P, P ∈ phis_of F b → Forall (entry_ok n) P) as Hentries.
  { intros b P HP. apply Forall_forall. intros e He.
    by apply (wf_phi_entry F b P e). }
  apply Forall_lookup_2. intros k B'. unfold fixed. rewrite after5_lookup.
  fold n L. destruct (decide (k < n)) as [Hk|Hk].
  - destruct (F !! k) as [B|] eqn:HB; [|done]. simpl. intros [= <-].
    pose proof (wf_lookup _ _ _ Hwf HB) as [Hterm Hphis]. split; simpl.
    + destruct (term B) as [l|c l]; simpl in *.
      * apply Forall_fmap. eapply Forall_impl; [done|]. intros s Hs. by apply rsucc_lt.
      * destruct Hterm as [Hc Hl]. split; [eapply value_ok_mono; [|done]; lia|].
        apply Forall_fmap. eapply Forall_impl; [done|]. intros s Hs. by apply rsucc_lt.
    + assert (Forall (Forall (entry_ok n)) (phis B)) as Hphis' by done.
      destruct (index_of k hs) as [j|].
      * destruct (decide (j < length hs)).
        -- apply Forall_lookup_2. intros q P'. rewrite list_lookup_imap.
           unfold rename_phis. rewrite list_lookup_fmap.
           destruct (phis B !! q) as [P|] eqn:EP; [|done]. simpl. intros [= <-].
           apply Forall_app. split.
           ++ apply filter_Forall. apply (renamed_entries_ok n L j).
              rewrite Forall_lookup in Hphis'. by eapply Hphis'.
           ++ apply Forall_singleton. split; simpl; lia.
        -- unfold rename_phis. apply Forall_fmap. eapply Forall_impl; [done|].
           intros P HP. by apply (renamed_entries_ok n L j).
      * eapply Forall_impl; [done|]. intros P HP. eapply Forall_impl; [done|].
        intros e [He1 He2]. split; [lia|]. eapply value_ok_mono; [|done]. lia.
  - destruct (decide (k = n)) as [->|Hk'].
    + intros [= <-]. split; simpl.
      * split; [lia|]. eapply Forall_impl; [done|]. intros h Hh. simpl in Hh. lia.
      * constructor.
        -- unfold label_phi. apply Forall_lookup_2. intros j e.
           rewrite list_lookup_imap. destruct (L !! j) eqn:E; [|done]. simpl.
           intros [= <-]. apply lookup_lt_Some in E. split; simpl; [lia|done].
        -- unfold dispatch_phis. apply Forall_join. apply Forall_lookup_2.
           intros j l. rewrite list_lookup_imap.
           destruct (take (length hs) hs !! j) as [h|]; [|done]. simpl. intros [= <-].
           unfold moved3, rename_phis. apply Forall_fmap, Forall_fmap.
           apply Forall_forall. intros P HP. simpl.
           apply (filter_Forall (entry_ok (n + 1 + length L))).
           apply (renamed_entries_ok n L j). by eapply Hentries.
    + destruct (decide (k < n + 1 + length L)); [|done]. intros [= <-].
      split; simpl; [|constructor]. apply Forall_singleton. lia.
Qed.

(** ** Trace equivalence *)

Lemma original_original n1 n2 tr :
  n1 ≤ n2 → original n1 (original n2 tr) = original n1 tr.
Proof.
  intros Hle. unfold original. induction tr as [|e tr IH]; [done|].
  destruct (decide (e.1 < n2)) as [H2|H2].
  - rewrite (filter_cons_True (λ e, e.1 < n2)) by done.
    destruct (decide (e.1 < n1)).
    + rewrite !(filter_cons_True (λ e, e.1 < n1)) by done. by f_equal.
    + by rewrite !(filter_cons_False (λ e, e.1 < n1)) by done.
  - rewrite (filter_cons_False (λ e, e.1 < n2)) by done.
    rewrite (filter_cons_False (λ e, e.1 < n1)) by lia. done.
Qed.

Lemma run_original F p : ∀ (env : nat → nat → Value) cur tr,
  wf F → run F env cur p = Some tr → original (length F) tr = tr.
Proof.
  induction p as [|s p IH]; intros env cur tr Hwf Hrun.
  - by injection Hrun as <-.
  - apply run_cons in Hrun as (Hstep & tr0 & Hrun0 & ->).
    unfold original. rewrite filter_cons_True.
    + f_equal. by eapply IH.
    + simpl. eapply wf_succ; [done|]. by eapply can_step_succ.
Qed.

Lemma trace_equiv_refl F : wf F → trace_equiv (length F) F F.
Proof.
  intros Hwf. split.
  - intros p tr Hrun. exists p, tr. split; [done|]. by eapply run_original.
  - intros p tr Hrun. exists p. by rewrite (run_original _ _ _ _ _ Hwf Hrun).
Qed.

Lemma trace_equiv_trans n0 n1 F F1 F2 :
  n0 ≤ n1 → trace_equiv n0 F F1 → trace_equiv n1 F1 F2 → trace_equiv n0 F F2.
Proof.
  intros Hle [Hf1 Hb1] [Hf2 Hb2]. split.
  - intros p tr Hrun. destruct (Hf1 _ _ Hrun) as (p1 & tr1 & Hrun1 & <-).
    destruct (Hf2 _ _ Hrun1) as (p2 & tr2 & Hrun2 & <-).
    exists p2, tr2. split; [done|]. by rewrite original_original.
  - intros p2 tr2 Hrun2. destruct (Hb2 _ _ Hrun2) as (p1 & Hrun1).
    destruct (Hb1 _ _ Hrun1) as (p & Hrun). exists p.
    by rewrite original_original in Hrun.
Qed.

Lemma trace_equiv_fixed F hs :
  NoDup hs → Forall (λ h, h < length F) hs → wf F → 0 < length F →
  trace_equiv (length F) F (fixed F hs).
Proof.
  intros Hnd Hhs Hwf Hpos. split.
  - intros p tr Hrun. by eapply (fix_sim_fwd F hs Hnd Hhs Hwf p entryBlock env0 env0).
  - intros p' tr' Hrun.
    by eapply (fix_sim_bwd F hs Hnd Hhs Hwf (length p') p' entryBlock env0 env0).
Qed.

(** ** The driver applies fix operations *)

Lemma NoDup_headers F C : NoDup (headers F C).
Proof. unfold headers. apply NoDup_filter, NoDup_elements. Qed.

Lemma elem_of_headers F C h : h ∈ headers F C ↔ h ∈ C ∧ is_header F C h.
Proof. unfold headers. rewrite list_elem_of_filter, elem_of_elements. tauto. Qed.

Lemma is_header_spec F C h : is_header F C h ↔ ∃ P, edge F P h ∧ P ∉ C.
Proof.
  unfold is_header. rewrite Exists_exists. setoid_rewrite elem_of_pred_list. done.
Qed.

Lemma headers_lt F C : wf F → Forall (λ h, h < length F) (headers F C).
Proof.
  intros Hwf. apply Forall_forall. intros h [_ Hh]%elem_of_headers.
  apply is_header_spec in Hh as (P & He & _). by eapply wf_succ.
Qed.

Lemma SCCVisitor_run_cases F Queue C :
  wf F →
  (irreducible F C = false ∧ SCCVisitor_run F Queue C = (false, F, Queue)) ∨
  (irreducible F C = true ∧ 0 < length F ∧
   SCCVisitor_run F Queue C =
   (true, fixed F (headers F C),
    Queue ++ [SubGraph_new (length F) ({[length F]} ∪ C)])).
Proof.
  intros Hwf. unfold SCCVisitor_run. destruct (irreducible F C) eqn:E; [right|by left].
  rewrite (processBlocks_closed F (headers F C) (NoDup_headers F C) (headers_lt F C Hwf)).
  split_and!; [done| |done].
  unfold irreducible in E. apply bool_decide_eq_true in E.
  pose proof (headers_lt F C Hwf) as Hlt. destruct (headers F C) as [|h hs]; [simpl in E; lia|].
  apply Forall_cons in Hlt as [Hh _]. lia.
Qed.

Lemma SCCVisitor_run_equiv F0 F Queue C b F' Queue' :
  SCCVisitor_run F Queue C = (b, F', Queue') →
  wf F → length F0 ≤ length F → trace_equiv (length F0) F0 F →
  wf F' ∧ length F0 ≤ length F' ∧ trace_equiv (length F0) F0 F'.
Proof.
  intros Hrun Hwf Hle Heq.
  destruct (SCCVisitor_run_cases F Queue C Hwf) as [[_ E]|(_ & Hpos & E)];
    rewrite E in Hrun; injection Hrun as <- <- <-; [done|].
  pose proof (NoDup_headers F C) as Hnd. pose proof (headers_lt F C Hwf) as Hlt.
  split_and!.
  - by apply wf_fixed.
  - rewrite length_fixed. lia.
  - eapply trace_equiv_trans; [exact Hle|done|]. by apply trace_equiv_fixed.
Qed.

Lemma visit_fold_equiv F0 comps : ∀ b F Queue b' F' Queue',
  foldl (λ '(Irreducible, F, Queue) C,
           let '(b, F, Queue) := SCCVisitor_run F Queue C in
           (Irreducible || b, F, Queue))
        (b, F, Queue) comps = (b', F', Queue') →
  wf F → length F0 ≤ length F → trace_equiv (length F0) F0 F →
  wf F' ∧ length F0 ≤ length F' ∧ trace_equiv (length F0) F0 F'.
Proof.
  induction comps as [|C comps IH]; intros b F Queue b' F' Queue' Hfold Hwf Hle Heq.
  - by injection Hfold as <- <- <-.
  - simpl in Hfold. destruct (SCCVisitor_run F Queue C) as [[b1 F1] Q1] eqn:E1.
    destruct (SCCVisitor_run_equiv F0 _ _ _ _ _ _ E1 Hwf Hle Heq) as (? & ? & ?).
    by eapply IH.
Qed.

Lemma run_queue_equiv F0 fuel : ∀ Changed F Queue b F',
  run_queue fuel Changed F Queue = Some (b, F') →
  wf F → length F0 ≤ length F → trace_equiv (length F0) F0 F →
  wf F' ∧ length F0 ≤ length F' ∧ trace_equiv (length F0) F0 F'.
Proof.
  induction fuel as [|fuel IH]; intros Changed F Queue b F' Hrun Hwf Hle Heq.
  - destruct Queue; [|done]. by injection Hrun as <- <-.
  - destruct Queue as [|SG Queue]; [by injection Hrun as <- <-|].
    cbn [run_queue] in Hrun.
    destruct (visitSubGraph F (SG :: Queue)) as [[b1 F1] Q1] eqn:E1.
    simpl in E1.
    destruct (visit_fold_equiv F0 _ _ _ _ _ _ _ E1 Hwf Hle Heq) as (? & ? & ?).
    by eapply IH.
Qed.

(** ** The dispatcher and its label *)

Lemma edge_fixed_dispatcher F hs P :
  Forall (λ h, h < length F) hs → wf F →
  edge (fixed F hs) P (length F) →
  ∃ k, P = length F + 1 + k ∧ k < length (fwd_pairs F hs).
Proof.
  intros Hhs Hwf He. pose proof (edge_lt _ _ _ He) as HP. rewrite length_fixed in HP.
  unfold edge in He. destruct (decide (P < length F)) as [Hlt|Hge].
  - rewrite succ_list_fixed_old in He by done.
    apply list_elem_of_fmap in He as (s & Hs & Hin). exfalso.
    pose proof (wf_succ _ _ _ Hwf Hin) as Hslt. unfold rsucc in Hs.
    destruct (index_of s hs); [|lia].
    destruct (index_of (n, P) (fwd_pairs F hs)); lia.
  - destruct (decide (P = length F)) as [->|Hne].
    + rewrite succ_list_fixed_dispatcher in He. rewrite Forall_forall in Hhs.
      apply Hhs in He. lia.
    + exists (P - (length F + 1)). split; lia.
Qed.

Lemma final_block_cons cur s p : final_block cur (s :: p) = final_block s p.
Proof.
  unfold final_block. destruct p as [|s' p]; [done|]. rewrite last_cons_cons.
  by destruct (last (s' :: p)) eqn:E; [|apply last_None in E].
Qed.

Lemma run_last F p : ∀ (env : nat → nat → Value) cur tr,
  run F env cur p = Some tr → p ≠ [] →
  ∃ (env' : nat → nat → Value) cur',
    can_step F env' cur' (final_block cur p) ∧
    final_env F env cur p = enter F env' cur' (final_block cur p).
Proof.
  induction p as [|s p IH]; intros env cur tr Hrun Hne; [done|].
  apply run_cons in Hrun as (Hstep & tr0 & Hrun0 & ->).
  destruct p as [|s' p].
  - exists env, cur. done.
  - destruct (IH _ _ _ Hrun0) as (env' & cur' & Hs' & Henv); [done|].
    exists env', cur'. by rewrite final_block_cons.
Qed.

(** C8. After the fix operation on the headers [hs] of a well-formed
    function, the terminator of the dispatcher is a switch on the label with
    exactly one case per metablock, case [i] going to the entry of metablock
    [i]; every predecessor of the dispatcher is a forwarding block that
    assigns the label the index of its metablock; and on every execution
    that reaches the dispatcher the label holds the index of a metablock,
    so the switch goes to the entry of that metablock and never to its
    default. *)
Theorem Dispatcher_default_never_taken (F : list Block) (hs : list nat) :
  wf F → NoDup hs → Forall (λ h, h < length F) hs → 0 < length F →
  let V := processBlocks F hs in
  let D := Dispatcher V in
  term <$> VF V !! D = Some (TSwitch (VPhi D (Label V)) (getEntry <$> MetaBlocks V)) ∧
  length (MetaBlocks V) = length hs ∧
  (∀ i M, MetaBlocks V !! i = Some M →
     hs !! i = Some (getEntry M) ∧ Indices V !! getEntry M = Some i) ∧
  (∀ P, edge (VF V) P D →
     ∃ i M Lbl, MetaBlocks V !! i = Some M ∧ P ∈ forwards M ∧
       succ_list (VF V) P = [D] ∧
       phis_of (VF V) D !! Label V = Some Lbl ∧ incoming_for Lbl P = VConst i) ∧
  (∀ p tr, run (VF V) env0 entryBlock p = Some tr → final_block entryBlock p = D →
     ∃ i M, MetaBlocks V !! i = Some M ∧
       eval (final_env (VF V) env0 entryBlock p) (VPhi D (Label V)) = VConst i ∧
       can_step (VF V) (final_env (VF V) env0 entryBlock p) D (getEntry M)).
Proof.
  intros Hwf Hnd Hhs Hpos. rewrite (processBlocks_closed F hs Hnd Hhs). simpl.
  assert (∀ P, edge (fixed F hs) P (length F) →
            ∃ i k h Q, P = length F + 1 + k ∧
              index_of (i, Q) (fwd_pairs F hs) = Some k ∧ hs !! i = Some h) as Hpred.
  { intros P HP. destruct (edge_fixed_dispatcher F hs P Hhs Hwf HP) as (k & -> & Hk).
    destruct (lookup_lt_is_Some_2 _ _ Hk) as [[i Q] HiQ].
    assert ((i, Q) ∈ fwd_pairs F hs) as Hin by by eapply list_elem_of_lookup_2.
    apply elem_of_fwd_pairs in Hin as (h & Hh & _).
    exists i, k, h, Q. split_and!; [done| |done].
    apply index_of_lookup; [apply NoDup_fwd_pairs|done]. }
  split_and!.
  - rewrite fixed_lookup_dispatcher. simpl. by rewrite metablocks3_entries.
  - unfold metablocks3. by rewrite length_imap.
  - intros i M. unfold metablocks3. rewrite list_lookup_imap.
    destruct (hs !! i) as [h|] eqn:Hi; [|done]. simpl. intros [= <-]. simpl.
    split; [done|]. by apply Indices_lookup.
  - intros P HP. destruct (Hpred P HP) as (i & k & h & Q & -> & Hk & Hi).
    eexists i, _, _. split_and!.
    + by apply metablocks3_lookup.
    + simpl. apply elem_of_fwdset. exists k, Q. split; [done|]. by apply index_of_Some.
    + apply succ_list_fixed_forward. by eapply index_of_lt.
    + by rewrite phis_of_fixed_dispatcher.
    + eapply incoming_label. by apply index_of_Some.
  - intros p tr Hrun Hfin.
    destruct (run_last _ _ _ _ _ Hrun) as (env' & cur' & Hstep & Henv).
    { intros ->. unfold final_block, entryBlock in Hfin. simpl in Hfin. lia. }
    rewrite Hfin in Hstep, Henv.
    destruct (Hpred cur') as (i & k & h & Q & -> & Hk & Hi).
    { by eapply can_step_succ. }
    assert (final_env (fixed F hs) env0 entryBlock p (length F) 0 = VConst i) as Hlbl.
    { rewrite Henv. by eapply enter_dispatcher_label. }
    eexists i, _. split_and!.
    + by apply metablocks3_lookup.
    + done.
    + simpl. by apply (can_step_dispatcher F hs h i Hi).
Qed.

(** ** Phi relocation *)

Lemma index_of_fwd_pairs_header F hs i h P :
  NoDup hs → hs !! i = Some h →
  is_Some (index_of (i, P) (fwd_pairs F hs)) ↔ P ∈ Preds (MetaBlock_of F h).
Proof.
  intros Hnd Hi. rewrite index_of_fwd_pairs. split.
  - intros (h' & Hh' & HP). congruence.
  - eauto.
Qed.



Lemma rsucc_header F hs i h P k :
  NoDup hs → hs !! i = Some h → index_of (i, P) (fwd_pairs F hs) = Some k →
  rsucc (length F) hs (fwd_pairs F hs) P h = length F + 1 + k.
Proof.
  intros Hnd Hi Hk. unfold rsucc. by rewrite (index_of_lookup _ _ _ Hnd Hi), Hk.
Qed.




Lemma Dispatcher_default_never_taken_witness :
  wf two_entry_fn ∧ NoDup [1; 2] ∧ Forall (λ h, h < length two_entry_fn) [1; 2] ∧
  0 < length two_entry_fn ∧
  let V := processBlocks two_entry_fn [1; 2] in
  let D := Dispatcher V in
  term <$> VF V !! D = Some (TSwitch (VPhi D (Label V)) (getEntry <$> MetaBlocks V)) ∧
  length (MetaBlocks V) = length [1; 2] ∧
  (∀ i M, MetaBlocks V !! i = Some M →
     [1; 2] !! i = Some (getEntry M) ∧ Indices V !! getEntry M = Some i) ∧
  (∀ P, edge (VF V) P D →
     ∃ i M Lbl, MetaBlocks V !! i = Some M ∧ P ∈ forwards M ∧
       succ_list (VF V) P = [D] ∧
       phis_of (VF V) D !! Label V = Some Lbl ∧ incoming_for Lbl P = VConst i) ∧
  (∀ p tr, run (VF V) env0 entryBlock p = Some tr → final_block entryBlock p = D →
     ∃ i M, MetaBlocks V !! i = Some M ∧
       eval (final_env (VF V) env0 entryBlock p) (VPhi D (Label V)) = VConst i ∧
       can_step (VF V) (final_env (VF V) env0 entryBlock p) D (getEntry M)).
Proof.
  assert (Hwf : wf two_entry_fn) by (apply (bool_decide_unpack _); vm_compute; exact I).
  assert (Hnd : NoDup [1; 2]) by (apply (bool_decide_unpack _); vm_compute; exact I).
  assert (Hhs : Forall (λ h, h < length two_entry_fn) [1; 2])
    by (apply (bool_decide_unpack _); vm_compute; exact I).
  assert (Hpos : 0 < length two_entry_fn) by (simpl; lia).
  split; [exact Hwf|]. split; [exact Hnd|]. split; [exact Hhs|]. split; [exact Hpos|].
  exact (Dispatcher_default_never_taken two_entry_fn [1; 2] Hwf Hnd Hhs Hpos).
Defined.

(** ** Reachability inside a region, and components *)

Lemma okpath_trans F ok a b c p q :
  okpath F ok a b p → okpath F ok b c q → okpath F ok a c (p ++ tail q).
Proof.
  intros [Hp Hokp] [Hq Hokq]. split; [by eapply path_from_to_app|].
  destruct p as [|x p]; [by destruct Hp|]. simpl. apply Forall_app. done.
Qed.

Lemma region_reach_spec F B u v :
  v ∈ region_reach F B u ↔ ∃ p, okpath F (in_region B) u v p.
Proof. apply reach_spec. Qed.

Lemma region_reach_refl F B u : u ∈ region_reach F B u.
Proof. apply region_reach_spec. eexists. apply okpath_refl. Qed.

Lemma region_reach_trans F B u v w :
  v ∈ region_reach F B u → w ∈ region_reach F B v → w ∈ region_reach F B u.
Proof.
  rewrite !region_reach_spec. intros [p Hp] [q Hq]. eexists. by eapply okpath_trans.
Qed.

Lemma okpath_last_ok F ok a b p : okpath F ok a b p → a = b ∨ ok b = true.
Proof.
  intros [(Hh & Hl & _) Hok]. destruct p as [|x p]; [done|]. injection Hh as ->.
  destruct p as [|y p]; [left; simpl in Hl; congruence|right].
  simpl in Hok. rewrite last_cons_cons in Hl. rewrite Forall_forall in Hok.
  apply Hok. apply last_Some in Hl as [l' ->]. apply elem_of_app. right. left.
Qed.

Lemma region_reach_subseteq F B u : region_reach F B u ⊆ {[u]} ∪ B.
Proof.
  intros v [p Hp]%region_reach_spec. apply okpath_last_ok in Hp as [->|Hv].
  - set_solver.
  - apply bool_decide_eq_true in Hv. set_solver.
Qed.

Lemma elem_of_scc_of F B v u :
  u ∈ scc_of F B v ↔ u ∈ region_reach F B v ∧ v ∈ region_reach F B u.
Proof. unfold scc_of. rewrite elem_of_filter. tauto. Qed.

Lemma scc_of_refl F B v : v ∈ scc_of F B v.
Proof. apply elem_of_scc_of. split; apply region_reach_refl. Qed.

Lemma scc_of_mutual F B v a b :
  a ∈ scc_of F B v → b ∈ scc_of F B v → b ∈ region_reach F B a.
Proof.
  intros [Ha1 Ha2]%elem_of_scc_of [Hb1 Hb2]%elem_of_scc_of.
  by eapply region_reach_trans.
Qed.

Lemma scc_of_eq F B v u : u ∈ scc_of F B v → scc_of F B u = scc_of F B v.
Proof.
  intros [Hu1 Hu2]%elem_of_scc_of. apply set_eq. intros w.
  rewrite !elem_of_scc_of. split; intros [H1 H2]; split;
    eauto using region_reach_trans.
Qed.

Lemma scc_of_disjoint F B v u : u ∉ scc_of F B v → scc_of F B u ## scc_of F B v.
Proof.
  intros Hu. apply elem_of_disjoint. intros w Hw1 Hw2. apply Hu.
  rewrite <- (scc_of_eq _ _ _ _ Hw2), (scc_of_eq _ _ _ _ Hw1). apply scc_of_refl.
Qed.

Lemma scc_of_subseteq F B v : scc_of F B v ⊆ {[v]} ∪ B.
Proof.
  intros u [Hu _]%elem_of_scc_of. exact (region_reach_subseteq F B v u Hu).
Qed.

Lemma scc_partition_spec F B nodes : ∀ seen,
  (∀ u, u ∈ seen → scc_of F B u ⊆ seen) →
  let l := scc_partition F B nodes seen in
  (∀ C, C ∈ l → ∃ v, v ∈ nodes ∧ C = scc_of F B v ∧ C ## seen) ∧ disjoint_list l.
Proof.
  induction nodes as [|v nodes IH]; intros seen Hseen; simpl.
  - split; [|done]. by intros C ?%elem_of_nil.
  - destruct (decide (v ∈ seen)) as [Hv|Hv].
    + destruct (IH seen Hseen) as [H1 H2]. split; [|done].
      intros C HC. destruct (H1 C HC) as (w & ? & ? & ?). exists w. split; [by right|done].
    + assert (scc_of F B v ## seen) as Hdisj.
      { apply elem_of_disjoint. intros w Hw1 Hw2. apply Hv. apply (Hseen w Hw2).
        rewrite (scc_of_eq _ _ _ _ Hw1). apply scc_of_refl. }
      destruct (IH (seen ∪ scc_of F B v)) as [H1 H2].
      { intros u [Hu|Hu]%elem_of_union.
        - specialize (Hseen u Hu). set_solver.
        - rewrite (scc_of_eq _ _ _ _ Hu). set_solver. }
      split.
      * intros C [->|HC]%elem_of_cons.
        -- exists v. split; [left|done].
        -- destruct (H1 C HC) as (w & ? & ? & ?). exists w.
           split; [by right|]. split; [done|]. set_solver.
      * split; [|done]. intros C' HC'. destruct (H1 C' HC') as (w & _ & _ & Hd).
        set_solver.
Qed.

Lemma scc_list_spec F G :
  (∀ C, C ∈ scc_list F G →
     ∃ v, v ∈ region_reach F (Blocks G) (SG_Entry G) ∧ C = scc_of F (Blocks G) v) ∧
  disjoint_list (scc_list F G).
Proof.
  unfold scc_list.
  destruct (scc_partition_spec F (Blocks G)
              (elements (region_reach F (Blocks G) (SG_Entry G))) ∅) as [H1 H2].
  { by intros u ?%elem_of_empty. }
  split; [|done]. intros C HC. destruct (H1 C HC) as (v & Hv & -> & _).
  exists v. split; [|done]. by apply elem_of_elements.
Qed.

(** ** Counting *)

Lemma size_le_1 (S : gset nat) : (∀ a b, a ∈ S → b ∈ S → a = b) → size S ≤ 1.
Proof.
  intros HS. destruct (decide (S = ∅)) as [->|Hne]; [rewrite size_empty; lia|].
  apply set_choose_L in Hne as [x Hx].
  assert (S = {[x]}) as -> by (apply set_eq; intros y; rewrite elem_of_singleton; naive_solver).
  by rewrite size_singleton.
Qed.

Lemma weight_bound (l : list (gset nat)) : ∀ (X T : gset nat),
  disjoint_list l → (∀ C, C ∈ l → C ⊆ X) →
  (∀ C a b, C ∈ l → a ∈ C → b ∈ C → a ∈ T → b ∈ T → a = b) →
  weight l ≤ size (X ∖ T).
Proof.
  induction l as [|C l IH]; intros X T Hdisj Hsub Hone; [unfold weight; simpl; lia|].
  destruct Hdisj as [HC Hdisj]. unfold weight in *.
  change (size C - 1 + sum_list ((λ C0 : gset nat, size C0 - 1) <$> l) ≤ size (X ∖ T)).
  assert (size C - 1 ≤ size (C ∖ T)) as H1.
  { assert (size C = size (C ∖ T) + size (C ∩ T)) as HszC.
    { rewrite <- size_union by set_solver. f_equal. apply set_eq. intros x.
      destruct (decide (x ∈ T)); set_solver. }
    assert (size (C ∩ T) ≤ 1); [|lia]. apply size_le_1.
    intros a b [??]%elem_of_intersection [??]%elem_of_intersection.
    eapply (Hone C); [left|done..]. }
  assert (sum_list ((λ C0 : gset nat, size C0 - 1) <$> l) ≤ size ((X ∖ C) ∖ T)) as H2.
  { apply IH; [done| |].
    - intros C' HC'. specialize (HC C' HC'). specialize (Hsub C' ltac:(by right)).
      set_solver.
    - intros C' a b HC'. apply (Hone C'). by right. }
  assert (size (X ∖ T) = size (C ∖ T) + size ((X ∖ C) ∖ T)); [|lia].
  rewrite <- size_union by set_solver. f_equal. apply set_eq. intros x.
  specialize (Hsub C ltac:(left)). destruct (decide (x ∈ C)); set_solver.
Qed.

(** ** The edges of the fixed function *)

Lemma edge_fixed_old F hs a b :
  a < length F →
  edge (fixed F hs) a b ↔
  ∃ s, edge F a s ∧ b = rsucc (length F) hs (fwd_pairs F hs) a s.
Proof.
  intros Ha. unfold edge. rewrite succ_list_fixed_old by done.
  rewrite list_elem_of_fmap. naive_solver.
Qed.

Lemma edge_fixed_kept F hs a b :
  NoDup hs → a < length F → b < length F →
  edge (fixed F hs) a b ↔
  edge F a b ∧ ∀ i, hs !! i = Some b → a ∉ Preds (MetaBlock_of F b).
Proof.
  intros Hnd Ha Hb. rewrite edge_fixed_old by done. split.
  - intros (s & He & ->).
    destruct (rsucc_cases F hs Hnd a s) as [[Hrs Hkeep]|(i & k & Hi & Hk & Hrs)];
      rewrite Hrs in *; [|lia].
    split; [done|]. intros i Hi HP.
    apply (index_of_fwd_pairs_header F hs i s a Hnd Hi) in HP as [k Hk].
    rewrite (Hkeep i Hi) in Hk. done.
  - intros [He Hkeep]. exists b. split; [done|].
    destruct (rsucc_cases F hs Hnd a b) as [[Hrs _]|(i & k & Hi & Hk & Hrs)]; [done|].
    exfalso. apply (Hkeep i Hi). apply (index_of_fwd_pairs_header F hs i b a Hnd Hi).
    by rewrite Hk.
Qed.

Lemma edge_fixed_forward F hs k b :
  k < length (fwd_pairs F hs) → edge (fixed F hs) (length F + 1 + k) b ↔ b = length F.
Proof.
  intros Hk. unfold edge. rewrite succ_list_fixed_forward by done.
  apply list_elem_of_singleton.
Qed.

Lemma edge_fixed_from_dispatcher F hs b : edge (fixed F hs) (length F) b ↔ b ∈ hs.
Proof. unfold edge. by rewrite succ_list_fixed_dispatcher. Qed.

Lemma edge_fixed_to_forward F hs i h P k :
  NoDup hs → hs !! i = Some h → index_of (i, P) (fwd_pairs F hs) = Some k →
  edge (fixed F hs) P (length F + 1 + k).
Proof.
  intros Hnd Hi Hk.
  assert (P ∈ Preds (MetaBlock_of F h)) as HP.
  { apply (index_of_fwd_pairs_header F hs i h P Hnd Hi). by rewrite Hk. }
  apply edge_fixed_old; [by eapply elem_of_Preds_lt|]. exists h. split.
  - by apply elem_of_MetaBlock_Preds in HP as [He _].
  - symmetry. by eapply rsucc_header.
Qed.

(** ** Reachability is kept by the fix operation *)

Lemma reachable_from_refl F a : reachable_from F a a.
Proof. exists [a]. done. Qed.

Lemma reachable_from_step F a b c :
  reachable_from F a b → edge F b c → reachable_from F a c.
Proof. intros [p Hp] He. eexists. by eapply path_from_to_snoc. Qed.

Lemma reachable_from_trans F a b c :
  reachable_from F a b → reachable_from F b c → reachable_from F a c.
Proof. intros [p Hp] [q Hq]. eexists. by eapply path_from_to_app. Qed.

Lemma reachable_from_edge F a b : edge F a b → reachable_from F a b.
Proof. intros He. eapply reachable_from_step; [apply reachable_from_refl|done]. Qed.

Lemma path_from_to_cons_inv F a b x p :
  path_from_to F a b (x :: p) →
  x = a ∧ (p = [] ∧ a = b ∨ ∃ c, edge F a c ∧ path_from_to F c b p).
Proof.
  intros (Hh & Hl & Hp). injection Hh as ->. split; [done|].
  destruct p as [|c p].
  - left. simpl in Hl. split; congruence.
  - right. exists c. apply path_cons in Hp as [He Hp]. rewrite last_cons_cons in Hl.
    split; [by apply He|]. done.
Qed.

Lemma edge_reachable_fixed F hs a c :
  NoDup hs → edge F a c → reachable_from (fixed F hs) a c.
Proof.
  intros Hnd He. pose proof (edge_lt _ _ _ He) as Ha.
  destruct (rsucc_cases F hs Hnd a c) as [[Hrs _]|(i & k & Hi & Hk & Hrs)].
  - apply reachable_from_edge. apply edge_fixed_old; [done|]. eauto.
  - apply (reachable_from_step _ _ (length F)).
    + apply (reachable_from_step _ _ (length F + 1 + k)).
      * apply reachable_from_edge. apply edge_fixed_old; [done|]. exists c.
        by rewrite Hrs.
      * apply edge_fixed_forward; [by eapply index_of_lt|done].
    + apply edge_fixed_from_dispatcher. by eapply list_elem_of_lookup_2.
Qed.

Lemma reachable_from_fixed F hs a b :
  NoDup hs → reachable_from F a b → reachable_from (fixed F hs) a b.
Proof.
  intros Hnd [p Hp]. revert a Hp. induction p as [|x p IH]; intros a Hp.
  { by destruct Hp. }
  apply path_from_to_cons_inv in Hp as [-> [[-> ->]|(c & He & Hp)]].
  - apply reachable_from_refl.
  - eapply reachable_from_trans; [by apply edge_reachable_fixed|by apply IH].
Qed.

(** ** Dominance *)

Lemma not_Dominates_path F a b :
  ¬ Dominates F a b → ∃ p, path_from_to F entryBlock b p ∧ a ∉ p.
Proof.
  intros Hnd. rewrite <- dominates_spec in Hnd. apply not_true_is_false in Hnd.
  unfold dominates in Hnd. apply orb_false_iff in Hnd as [Hnd H3].
  apply orb_false_iff in Hnd as [H1 H2].
  apply bool_decide_eq_false in H1, H2. apply negb_false_iff, bool_decide_eq_true in H3.
  apply reach_spec in H3 as (p & Hp & Hok). exists p. split; [done|].
  destruct Hp as (Hh & _). destruct p as [|x p]; [done|]. injection Hh as ->.
  simpl in Hok. rewrite Forall_forall in Hok. intros [?|Hin]%elem_of_cons; [done|].
  specialize (Hok _ Hin). apply negb_true_iff, bool_decide_eq_false in Hok. done.
Qed.

Lemma Dominates_antisym F a b :
  reachable F a → Dominates F a b → Dominates F b a → a = b.
Proof.
  intros [p0 Hp0] Hab Hba. destruct (decide (a = b)) as [|Hne]; [done|exfalso].
  destruct (path_from_to_NoDup _ _ _ _ Hp0) as (p & Hp & Hnd & _).
  pose proof (Hba p Hp) as Hb.
  destruct (path_from_to_split _ _ _ _ _ Hp Hb) as (p1 & p2 & -> & Hp1 & Hp2 & _).
  pose proof (Hab p1 Hp1) as Ha1.
  destruct Hp2 as (Hh2 & Hl2 & _). destruct p2 as [|x p2]; [done|].
  injection Hh2 as ->. simpl in *. destruct p2 as [|y p2].
  - simpl in Hl2. congruence.
  - rewrite last_cons_cons in Hl2. apply NoDup_app in Hnd as (_ & Hd & _).
    apply (Hd a Ha1). apply last_Some in Hl2 as [l' ->]. apply elem_of_app. right. left.
Qed.

(** A reachable block other than the entry has a predecessor it does not
    dominate, and that predecessor is reachable. *)
Lemma reachable_has_pred F h :
  reachable F h → h ≠ entryBlock →
  ∃ P, edge F P h ∧ ¬ Dominates F h P ∧ reachable F P.
Proof.
  intros [p0 Hp0] Hne.
  destruct (path_from_to_NoDup _ _ _ _ Hp0) as (p & Hp & Hnd & _).
  destruct Hp as (Hh & Hl & Hp). apply last_Some in Hl as [q ->].
  destruct (last q) as [P|] eqn:HP.
  - exists P. apply path_app in Hp as (Hq & _ & He).
    assert (path_from_to F entryBlock P q) as HqP.
    { split_and!; [|done..]. destruct q; [done|]. done. }
    split_and!.
    + by apply He.
    + intros Hdom. specialize (Hdom q HqP). apply NoDup_app in Hnd as (_ & Hd & _).
      apply (Hd h Hdom). left.
    + by exists q.
  - apply last_None in HP as ->. simpl in Hh. congruence.
Qed.

(** * The driver terminates *)

(** ** Subgraphs the fix operation does not touch *)

Lemma path_mono F F1 p :
  (∀ a b, a ∈ p → b ∈ tail p → edge F a b → edge F1 a b) → path F p → path F1 p.
Proof.
  induction p as [|a [|b q] IH]; intros Hedge Hp; [done..|].
  destruct Hp as [Hab Hp]. split.
  - apply Hedge; [left|left|done].
  - apply IH; [|done]. intros a' b' Ha' Hb'. apply Hedge; [by right|].
    simpl. right. exact Hb'.
Qed.

Lemma okpath_mono F F1 B u v p :
  (∀ a b, a ∈ ({[u]} ∪ B : gset nat) → b ∈ B → edge F a b → edge F1 a b) →
  okpath F (in_region B) u v p → okpath F1 (in_region B) u v p.
Proof.
  intros Hedge [(Hh & Hl & Hp) Hok]. split; [split_and!; [done..|]|done].
  apply (path_mono F); [|done]. intros a b Ha Hb.
  rewrite Forall_forall in Hok.
  assert (b ∈ B) as HbB.
  { specialize (Hok b Hb). unfold in_region in Hok. by apply bool_decide_eq_true in Hok. }
  apply Hedge; [|done].
  destruct p as [|x q]; [by apply elem_of_nil in Ha|]. simpl in Hh, Hok.
  assert (x = u) as -> by congruence.
  apply elem_of_cons in Ha as [->|Ha]; [set_solver|].
  specialize (Hok a Ha). unfold in_region in Hok. apply bool_decide_eq_true in Hok.
  set_solver.
Qed.

Lemma region_reach_ext F F1 B u :
  (∀ a b, a ∈ ({[u]} ∪ B : gset nat) → b ∈ B → edge F a b ↔ edge F1 a b) →
  region_reach F1 B u = region_reach F B u.
Proof.
  intros Hedge. apply set_eq. intros v. rewrite !region_reach_spec.
  split; intros [p Hp]; exists p.
  - apply (okpath_mono F1 F); [|done]. intros a b Ha Hb. by apply Hedge.
  - apply (okpath_mono F F1); [|done]. intros a b Ha Hb. by apply Hedge.
Qed.

Lemma scc_of_ext F F1 B v :
  v ∈ B →
  (∀ a b, a ∈ B → b ∈ B → edge F a b ↔ edge F1 a b) →
  scc_of F1 B v = scc_of F B v.
Proof.
  intros Hv Hedge.
  assert (∀ u, u ∈ B → region_reach F1 B u = region_reach F B u) as Hreg.
  { intros u Hu. apply region_reach_ext. intros a b Ha Hb. apply Hedge; [|done].
    set_solver. }
  apply set_eq. intros u. rewrite !elem_of_scc_of, (Hreg v Hv). split.
  - intros [Hu Hvu]. split; [done|]. rewrite <- Hreg; [done|].
    pose proof (region_reach_subseteq F B v). set_solver.
  - intros [Hu Hvu]. split; [done|]. rewrite Hreg; [done|].
    pose proof (region_reach_subseteq F B v). set_solver.
Qed.

Lemma scc_partition_ext F F1 B nodes : ∀ seen,
  (∀ v, v ∈ nodes → v ∈ B) →
  (∀ a b, a ∈ B → b ∈ B → edge F a b ↔ edge F1 a b) →
  scc_partition F1 B nodes seen = scc_partition F B nodes seen.
Proof.
  induction nodes as [|v rest IH]; intros seen Hn Hedge; [done|]. simpl.
  rewrite (scc_of_ext F F1 B v) by (first [apply Hn; left|exact Hedge]).
  rewrite !IH by (first [exact Hedge | intros; apply Hn; by right]). done.
Qed.

Lemma scc_list_ext F F1 G :
  SG_Entry G ∈ Blocks G →
  (∀ a b, a ∈ Blocks G → b ∈ Blocks G → edge F a b ↔ edge F1 a b) →
  scc_list F1 G = scc_list F G.
Proof.
  intros HE Hedge. unfold scc_list.
  rewrite (region_reach_ext F F1).
  - apply scc_partition_ext; [|done]. intros v Hv%elem_of_elements.
    pose proof (region_reach_subseteq F (Blocks G) (SG_Entry G)). set_solver.
  - intros a b Ha Hb. apply Hedge; [|done]. set_solver.
Qed.

Lemma scc_list_fixed_frame F hs G :
  NoDup hs → SG_Entry G ∈ Blocks G →
  (∀ b, b ∈ Blocks G → b < length F ∧ b ∉ hs) →
  scc_list (fixed F hs) G = scc_list F G.
Proof.
  intros Hnd HE HB. apply scc_list_ext; [done|]. intros a b Ha Hb.
  destruct (HB a Ha) as [Hla _]. destruct (HB b Hb) as [Hlb Hnb].
  rewrite (edge_fixed_kept F hs a b Hnd Hla Hlb). split; [|tauto].
  intros He. split; [done|]. intros i Hi. destruct Hnb. by eapply list_elem_of_lookup_2.
Qed.

(** ** The region a fix operation leaves *)

(** A path of the fixed function to a header through old blocks only uses
    edges the fix kept, so the header dominates where the path starts. *)
Lemma kept_path_Dominates F hs h :
  NoDup hs → h ∈ hs → ∀ p a,
  path_from_to (fixed F hs) a h p → Forall (λ x, x < length F) p → Dominates F h a.
Proof.
  intros Hnd Hh. induction p as [|x p IH]; intros a Hp Hlt.
  - by destruct Hp as [? _].
  - apply path_from_to_cons_inv in Hp as [-> [[-> ->]|(c & He & Hp)]].
    { apply Dominates_refl. }
    apply Forall_cons in Hlt as [Ha Hlt].
    assert (c < length F) as Hc.
    { rewrite Forall_forall in Hlt. apply Hlt. by eapply path_from_to_elem_l. }
    specialize (IH c Hp Hlt).
    apply (edge_fixed_kept F hs a c Hnd Ha Hc) in He as [He Hkept].
    intros q Hq.
    pose proof (path_from_to_snoc _ _ _ _ _ Hq He) as Hqc.
    apply IH in Hqc. apply elem_of_app in Hqc as [Hin|Hin]; [done|].
    apply list_elem_of_singleton in Hin as ->.
    apply list_elem_of_lookup_1 in Hh as [i Hi]. specialize (Hkept i Hi).
    assert (Dominates F c a) as Hdom.
    { apply dominates_spec. destruct (dominates F c a) eqn:E; [done|].
      destruct Hkept. apply elem_of_MetaBlock_Preds. done. }
    by apply Hdom.
Qed.

(** Inside the new region nothing leads to the dispatcher. *)
Lemma region_path_old F hs (C : gset nat) p : ∀ u,
  Forall (λ h, h < length F) hs → wf F →
  (∀ x, x ∈ C → x < length F) →
  path (fixed F hs) p → head p = Some u → u ∈ C →
  Forall (λ x, in_region ({[length F]} ∪ C) x = true) (tail p) →
  Forall (λ x, x ∈ C) p.
Proof.
  induction p as [|a [|c q] IH]; intros u Hhs Hwf HC Hp Hh Hu Hok.
  - done.
  - simpl in Hh. assert (a = u) as -> by congruence. by apply Forall_singleton.
  - simpl in Hh. assert (a = u) as -> by congruence.
    destruct Hp as [He Hp]. simpl in Hok. apply Forall_cons in Hok as [Hc Hok].
    apply Forall_cons. split; [done|].
    apply (IH c); try done.
    unfold in_region in Hc. apply bool_decide_eq_true in Hc.
    apply elem_of_union in Hc as [Hc|Hc]; [|done].
    apply elem_of_singleton in Hc as ->.
    apply edge_fixed_dispatcher in He as (k & -> & _); [|done..].
    apply HC in Hu. lia.
Qed.

Lemma mu_fixed_region F (C : gset nat) h1 h2 :
  wf F → h1 ∈ headers F C → h2 ∈ headers F C → h1 ≠ h2 →
  (∀ u, u ∈ C → u < length F) → reachable F h1 →
  mu (fixed F (headers F C)) (SubGraph_new (length F) ({[length F]} ∪ C)) + 2 ≤ size C.
Proof.
  intros Hwf H1 H2 Hne HC Hr.
  pose proof (NoDup_headers F C) as Hnd. pose proof (headers_lt F C Hwf) as Hlt.
  set (hs := headers F C) in *. set (n := length F) in *.
  set (X := ({[n]} ∪ C : gset nat)).
  assert (h1 ∈ C) as H1C by (by apply elem_of_headers in H1 as [? _]).
  assert (h2 ∈ C) as H2C by (by apply elem_of_headers in H2 as [? _]).
  assert (n ∉ C) as HnC by (intros ?%HC; lia).
  (* a path of the region between old blocks stays in the old blocks *)
  assert (∀ a h, a ∈ C → h ∈ hs → h ∈ region_reach (fixed F hs) X a → Dominates F h a)
    as Hdom.
  { intros a h Ha Hh [p [(Hhd & Hl & Hp) Hok]]%region_reach_spec.
    apply (kept_path_Dominates F hs h Hnd Hh p); [done|].
    pose proof (region_path_old F hs C p a Hlt Hwf HC Hp Hhd Ha Hok) as Hin.
    eapply Forall_impl; [exact Hin|]. intros x Hx. by apply HC. }
  assert (∀ a, a ∈ C → n ∉ region_reach (fixed F hs) X a) as Hno.
  { intros a Ha [p [(Hhd & Hl & Hp) Hok]]%region_reach_spec.
    pose proof (region_path_old F hs C p a Hlt Hwf HC Hp Hhd Ha Hok) as Hin.
    rewrite Forall_forall in Hin. apply HnC, Hin.
    eapply path_from_to_elem_r. by split_and!. }
  unfold mu. destruct (scc_list_spec (fixed F hs) (SubGraph_new n X)) as [Hl Hdis].
  simpl in Hl.
  etrans; [apply Nat.add_le_mono_r;
           apply (weight_bound _ X ({[n; h1; h2]} : gset nat) Hdis)|].
  - intros C' (v & Hv & ->)%Hl.
    pose proof (scc_of_subseteq (fixed F hs) X v).
    pose proof (region_reach_subseteq (fixed F hs) X n). set_solver.
  - intros C' a b (v & Hv & ->)%Hl Ha Hb HaT HbT.
    pose proof (scc_of_mutual _ _ _ _ _ Ha Hb) as Hab.
    pose proof (scc_of_mutual _ _ _ _ _ Hb Ha) as Hba.
    assert (∀ a b, a ∈ ({[h1; h2]} : gset nat) → b ∈ ({[h1; h2]} : gset nat) →
              b ∈ region_reach (fixed F hs) X a → a ∈ region_reach (fixed F hs) X b →
              a = b) as Hhh.
    { intros x y Hx Hy Hxy Hyx.
      apply elem_of_union in Hx as [Hx|Hx]; apply elem_of_singleton in Hx as ->;
        apply elem_of_union in Hy as [Hy|Hy]; apply elem_of_singleton in Hy as ->;
        try done.
      - apply (Dominates_antisym F); [done|by apply Hdom..].
      - symmetry. apply (Dominates_antisym F); [done|by apply Hdom..]. }
    destruct (decide (a = n)) as [->|Hna]; destruct (decide (b = n)) as [->|Hnb].
    + done.
    + destruct (Hno b); [set_solver|done].
    + destruct (Hno a); [set_solver|done].
    + apply Hhh; [set_solver..|done|done].
  - assert (X ∖ {[n; h1; h2]} ⊆ C ∖ {[h1; h2]}) as Hsub by set_solver.
    apply subseteq_size in Hsub.
    assert (C = {[h1]} ∪ ({[h2]} ∪ C ∖ {[h1; h2]})) as HCeq.
    { apply set_eq. intros x. destruct (decide (x = h1)), (decide (x = h2)); set_solver. }
    assert (size C = 2 + size (C ∖ {[h1; h2]})) as ->; [|lia].
    rewrite HCeq at 1.
    rewrite size_union by set_solver. rewrite size_union by set_solver.
    rewrite !size_singleton. lia.
Qed.

(** ** The work left decreases *)

Lemma disjoint_list_snoc (l : list (gset nat)) C :
  disjoint_list (l ++ [C]) ↔ disjoint_list l ∧ ∀ C', C' ∈ l → C' ## C.
Proof.
  induction l as [|A l IH]; simpl.
  - split; intros _; split; try done; by intros ? ?%elem_of_nil.
  - rewrite IH. split.
    + intros [HA [Hl HC]]. split_and!; [|done|].
      * intros C' HC'. apply HA. apply elem_of_app. by left.
      * intros C' [->|HC']%elem_of_cons; [|by apply HC].
        apply HA. apply elem_of_app. right. left.
    + intros [[HA Hl] HC]. split_and!; [|done|].
      * intros C' [HC'|HC']%elem_of_app; [by apply HA|].
        apply list_elem_of_singleton in HC' as ->. apply HC. left.
      * intros C' HC'. apply HC. by right.
Qed.

Lemma potential_cons F G Queue : potential F (G :: Queue) = 1 + mu F G + potential F Queue.
Proof. done. Qed.

Lemma potential_snoc F Queue G : potential F (Queue ++ [G]) = potential F Queue + (1 + mu F G).
Proof.
  induction Queue as [|G0 Queue IH]; [unfold potential; simpl; lia|].
  change ((G0 :: Queue) ++ [G]) with (G0 :: (Queue ++ [G])).
  rewrite !potential_cons, IH. lia.
Qed.

Lemma potential_ext F F1 Queue :
  (∀ G, G ∈ Queue → scc_list F1 G = scc_list F G) → potential F1 Queue = potential F Queue.
Proof.
  induction Queue as [|G Queue IH]; intros Hall; [done|].
  rewrite !potential_cons. unfold mu. rewrite (Hall G) by left.
  rewrite IH; [done|]. intros G' HG'. apply Hall. by right.
Qed.

Lemma weight_cons C l : weight (C :: l) = size C - 1 + weight l.
Proof. done. Qed.

(** The dispatcher can be reached when a header that is not the entry
    block of the function could. *)
Lemma reachable_dispatcher F hs h :
  NoDup hs → h ∈ hs → h ≠ entryBlock → reachable F h →
  reachable (fixed F hs) (length F).
Proof.
  intros Hnd Hh Hne Hr.
  destruct (reachable_has_pred F h Hr Hne) as (P & He & Hnd' & HrP).
  apply list_elem_of_lookup_1 in Hh as [i Hi].
  assert (P ∈ Preds (MetaBlock_of F h)) as HP.
  { apply elem_of_MetaBlock_Preds. split; [done|].
    apply not_true_is_false. by rewrite dominates_spec. }
  apply (index_of_fwd_pairs_header F hs i h P Hnd Hi) in HP as [k Hk].
  pose proof (index_of_lt _ _ _ Hk) as Hlt.
  apply (reachable_from_step _ _ (length F + 1 + k)).
  - apply (reachable_from_step _ _ P).
    + by apply reachable_from_fixed.
    + by eapply edge_fixed_to_forward.
  - by apply edge_fixed_forward.
Qed.

Lemma irreducible_two_headers F C :
  irreducible F C = true → ∃ h1 h2, h1 ∈ headers F C ∧ h2 ∈ headers F C ∧ h1 ≠ h2.
Proof.
  unfold irreducible. intros Hlen%bool_decide_eq_true.
  pose proof (NoDup_headers F C) as Hnd.
  destruct (headers F C) as [|h1 [|h2 l]]; [simpl in Hlen; lia..|].
  exists h1, h2. split_and!; [left|right; left|].
  apply NoDup_cons in Hnd as [Hn _]. intros ->. apply Hn. left.
Qed.

Lemma SCCVisitor_run_potential F Queue C b F' Queue' :
  SCCVisitor_run F Queue C = (b, F', Queue') →
  wf F → queue_ok F Queue →
  (∀ u, u ∈ C → u < length F ∧ reachable F u) →
  (∀ G, G ∈ Queue → C ## Blocks G) →
  wf F' ∧ length F ≤ length F' ∧ queue_ok F' Queue' ∧
  (∀ u, reachable F u → reachable F' u) ∧
  (∀ G, G ∈ Queue' → G ∈ Queue ∨ Blocks G = {[length F]} ∪ C) ∧
  potential F' Queue' ≤ potential F Queue + (size C - 1).
Proof.
  intros Hrun Hwf [Hq Hdis] HC HCQ.
  destruct (SCCVisitor_run_cases F Queue C Hwf) as [[_ E]|(Hirr & Hpos & E)];
    rewrite E in Hrun; injection Hrun as <- <- <-.
  { split_and!; [done..| |lia]. intros G HG. by left. }
  pose proof (NoDup_headers F C) as Hnd. pose proof (headers_lt F C Hwf) as Hlt.
  destruct (irreducible_two_headers F C Hirr) as (h1 & h2 & H1 & H2 & Hne).
  assert (h1 ∈ C) as H1C by (by apply elem_of_headers in H1 as [? _]).
  assert (h2 ∈ C) as H2C by (by apply elem_of_headers in H2 as [? _]).
  assert (∀ u, reachable F u → reachable (fixed F (headers F C)) u) as Hreach.
  { intros u Hu. by apply reachable_from_fixed. }
  assert (reachable (fixed F (headers F C)) (length F)) as HrD.
  { destruct (decide (h1 = entryBlock)) as [->|Hh1].
    - apply (reachable_dispatcher F _ h2); [done..|congruence|by apply HC].
    - apply (reachable_dispatcher F _ h1); [done..|by apply HC]. }
  rewrite Forall_forall in Hq.
  split_and!.
  - by apply wf_fixed.
  - rewrite length_fixed; [lia|done..].
  - split.
    + apply Forall_app. split.
      * apply Forall_forall. intros G HG. destruct (Hq G HG) as (HE & HB & Hr).
        split_and!; [done| |by apply Hreach].
        intros x Hx%HB. rewrite length_fixed; [lia|done..].
      * apply Forall_singleton. split_and!; simpl.
        -- set_solver.
        -- intros x [Hx|Hx]%elem_of_union; rewrite length_fixed by done.
           ++ apply elem_of_singleton in Hx as ->. lia.
           ++ apply HC in Hx. lia.
        -- done.
    + rewrite fmap_app. simpl. apply disjoint_list_snoc. split; [done|].
      intros B (G & -> & HG)%list_elem_of_fmap.
      destruct (Hq G HG) as (_ & HB & _). specialize (HCQ G HG).
      apply disjoint_union_r. split; [|done].
      apply disjoint_singleton_r. intros ?%HB. lia.
  - done.
  - intros G [HG|HG]%elem_of_app; [by left|].
    apply list_elem_of_singleton in HG as ->. by right.
  - rewrite potential_snoc.
    rewrite (potential_ext F).
    + pose proof (mu_fixed_region F C h1 h2 Hwf H1 H2 Hne) as Hmu.
      specialize (Hmu (λ u Hu, proj1 (HC u Hu)) (proj2 (HC h1 H1C))). lia.
    + intros G HG. destruct (Hq G HG) as (HE & HB & _). specialize (HCQ G HG).
      apply scc_list_fixed_frame; [done..|].
      intros x Hx. split; [by apply HB|].
      intros [Hx' _]%elem_of_headers. set_solver.
Qed.

Lemma visit_fold_potential comps : ∀ b F Queue b' F' Queue',
  foldl (λ '(Irreducible, F, Queue) C,
           let '(b, F, Queue) := SCCVisitor_run F Queue C in
           (Irreducible || b, F, Queue))
        (b, F, Queue) comps = (b', F', Queue') →
  wf F → queue_ok F Queue → comps_ok F Queue comps →
  wf F' ∧ queue_ok F' Queue' ∧
  potential F' Queue' ≤ potential F Queue + weight comps.
Proof.
  induction comps as [|C comps IH]; intros b F Queue b' F' Queue' Hfold Hwf Hq Hc.
  - injection Hfold as <- <- <-. split_and!; [done..|lia].
  - simpl in Hfold. destruct (SCCVisitor_run F Queue C) as [[b1 F1] Q1] eqn:E1.
    destruct Hc as [[HCd Hdis] Hc].
    destruct (Hc C ltac:(left)) as [HC HCQ].
    destruct (SCCVisitor_run_potential _ _ _ _ _ _ E1 Hwf Hq HC HCQ)
      as (Hwf1 & Hlen & Hq1 & Hreach & HQ1 & Hpot).
    destruct (IH _ _ _ _ _ _ Hfold Hwf1 Hq1) as (Hwf' & Hq' & Hpot').
    + split; [done|]. intros C' HC'.
      destruct (Hc C' ltac:(by right)) as [HC'1 HC'Q]. split.
      * intros u Hu. destruct (HC'1 u Hu) as [? ?]. split; [lia|by apply Hreach].
      * intros G [HG|HG]%HQ1; [by apply HC'Q|]. rewrite HG.
        apply disjoint_union_r. split; [|symmetry; by apply HCd].
        apply disjoint_singleton_r. intros Hn%HC'1. lia.
    + split_and!; [done..|]. rewrite weight_cons. lia.
Qed.

Lemma scc_list_comps_ok F SG Queue :
  queue_ok F (SG :: Queue) → comps_ok F Queue (scc_list F SG).
Proof.
  intros [Hq Hdis]. apply Forall_cons in Hq as [(HE & HB & Hr) Hq].
  destruct (scc_list_spec F SG) as [Hl Hd]. split; [done|].
  intros C (v & Hv & ->)%Hl.
  assert (∀ u, u ∈ scc_of F (Blocks SG) v → u ∈ Blocks SG) as Hin.
  { intros u Hu. pose proof (scc_of_subseteq F (Blocks SG) v).
    pose proof (region_reach_subseteq F (Blocks SG) (SG_Entry SG)). set_solver. }
  split.
  - intros u Hu. split; [by apply HB, Hin|].
    apply elem_of_scc_of in Hu as [Hu _].
    apply region_reach_spec in Hv as [p [Hp _]].
    apply region_reach_spec in Hu as [q [Hq' _]].
    apply (reachable_from_trans _ _ (SG_Entry SG)); [done|].
    apply (reachable_from_trans _ _ v); [by exists p|by exists q].
  - intros G HG. simpl in Hdis. destruct Hdis as [Hdis _].
    specialize (Hdis (Blocks G)).
    assert (Blocks SG ## Blocks G) as Hd'.
    { apply Hdis. apply list_elem_of_fmap. by exists G. }
    intros x Hx%Hin Hx'. by apply (Hd' x).
Qed.

Lemma visitSubGraph_potential F SG Queue b F' Queue' :
  visitSubGraph F (SG :: Queue) = (b, F', Queue') →
  wf F → queue_ok F (SG :: Queue) →
  wf F' ∧ queue_ok F' Queue' ∧ potential F' Queue' < potential F (SG :: Queue).
Proof.
  intros Hvisit Hwf Hq. simpl in Hvisit.
  pose proof (scc_list_comps_ok F SG Queue Hq) as Hc.
  assert (queue_ok F Queue) as Hq0.
  { destruct Hq as [Hq Hdis]. apply Forall_cons in Hq as [_ Hq].
    destruct Hdis as [_ Hdis]. by split. }
  destruct (visit_fold_potential _ _ _ _ _ _ _ Hvisit Hwf Hq0 Hc) as (? & ? & Hpot).
  split_and!; [done..|]. rewrite potential_cons. unfold mu. lia.
Qed.

(** The loop of the driver ends: the work left bounds the iterations. *)
Lemma run_queue_total fuel : ∀ Changed F Queue,
  wf F → queue_ok F Queue → potential F Queue ≤ fuel →
  is_Some (run_queue fuel Changed F Queue).
Proof.
  induction fuel as [|fuel IH]; intros Changed F Queue Hwf Hq Hpot.
  - destruct Queue as [|SG Queue]; [by eexists|].
    rewrite potential_cons in Hpot. lia.
  - destruct Queue as [|SG Queue]; [by eexists|].
    cbn [run_queue].
    destruct (visitSubGraph F (SG :: Queue)) as [[b1 F1] Q1] eqn:E1.
    destruct (visitSubGraph_potential _ _ _ _ _ _ E1 Hwf Hq) as (Hwf1 & Hq1 & Hlt).
    apply IH; [done..|lia].
Qed.

Lemma run_queue_mono fuel : ∀ fuel' Changed F Queue r,
  run_queue fuel Changed F Queue = Some r → fuel ≤ fuel' →
  run_queue fuel' Changed F Queue = Some r.
Proof.
  induction fuel as [|fuel IH]; intros fuel' Changed F Queue r Hrun Hle.
  - destruct Queue; [|done]. by destruct fuel'.
  - destruct Queue as [|SG Queue]; [by destruct fuel'|].
    destruct fuel' as [|fuel']; [lia|]. cbn [run_queue] in *.
    destruct (visitSubGraph F (SG :: Queue)) as [[b1 F1] Q1].
    apply IH; [done|lia].
Qed.

Lemma size_seq_set n : size (list_to_set (seq 0 n) : gset nat) = n.
Proof. rewrite size_list_to_set by apply NoDup_seq. apply length_seq. Qed.

Lemma whole_queue_ok F : 0 < length F → queue_ok F [whole F].
Proof.
  intros Hpos. split; [|simpl; split; [by intros ? ?%elem_of_nil|done]].
  apply Forall_singleton. split_and!; simpl.
  - apply elem_of_list_to_set, elem_of_seq. unfold entryBlock. lia.
  - intros b Hb%elem_of_list_to_set%elem_of_seq. lia.
  - apply reachable_from_refl.
Qed.

Lemma potential_whole F : 0 < length F → potential F [whole F] ≤ length F.
Proof.
  intros Hpos. rewrite potential_cons. unfold potential, mu. simpl.
  destruct (scc_list_spec F (whole F)) as [Hl Hd].
  pose proof (weight_bound _ (list_to_set (seq 0 (length F))) {[entryBlock]} Hd) as Hw.
  assert (size ((list_to_set (seq 0 (length F)) : gset nat) ∖ {[entryBlock]}) + 1 =
          length F) as Hsz.
  { rewrite <- (size_seq_set (length F)) at 2.
    rewrite <- (size_singleton (C := gset nat) entryBlock).
    rewrite <- size_union by set_solver. f_equal. apply set_eq. intros x.
    rewrite elem_of_union, elem_of_difference, elem_of_singleton, elem_of_list_to_set,
      elem_of_seq. unfold entryBlock. destruct (decide (x = 0)); [|tauto]. lia. }
  assert (weight (scc_list F (whole F)) ≤
          size ((list_to_set (seq 0 (length F)) : gset nat) ∖ {[entryBlock]})); [|lia].
  apply Hw.
  - intros C (v & Hv & ->)%Hl. simpl in *.
    pose proof (scc_of_subseteq F (list_to_set (seq 0 (length F))) v).
    pose proof (region_reach_subseteq F (list_to_set (seq 0 (length F))) entryBlock).
    assert (entryBlock ∈ (list_to_set (seq 0 (length F)) : gset nat)).
    { apply elem_of_list_to_set, elem_of_seq. unfold entryBlock. lia. }
    set_solver.
  - intros C a b _ _ _ ->%elem_of_singleton ->%elem_of_singleton. done.
Qed.

Lemma headers_nil C : headers [] C = [].
Proof.
  unfold headers. induction (elements C) as [|x l IH]; [done|].
  rewrite filter_cons_False; [done|]. unfold is_header. simpl. by intros ?%Exists_nil.
Qed.

(** The pass returns, and what it returns does not depend on the fuel. *)
Lemma runOnFunction_total F :
  wf F →
  ∃ b F', ∀ fuel, length F < fuel → runOnFunction fuel F = Some (b, F').
Proof.
  intros Hwf. destruct F as [|B F].
  - exists false, []. intros [|fuel] Hf; [simpl in Hf; lia|].
    unfold runOnFunction. cbn [run_queue visitSubGraph].
    rewrite (visit_components_untouched [] _ false []); [by destruct fuel|].
    apply Forall_forall. intros C _. rewrite headers_nil. simpl. lia.
  - set (F0 := B :: F) in *.
    assert (0 < length F0) as Hpos by (simpl; lia).
    destruct (run_queue_total (length F0) false F0 [whole F0] Hwf
                (whole_queue_ok F0 Hpos) (potential_whole F0 Hpos)) as [[b F'] Hrun].
    exists b, F'. intros fuel Hf. unfold runOnFunction.
    apply (run_queue_mono (length F0)); [done|lia].
Qed.

(** C1. The pass returns on every well-formed function, with the same
    result for every fuel above the number of blocks, and it preserves the
    executions of the function: every execution of the function from its
    entry block is matched by an execution of the function the pass returns
    that makes, in the blocks of the original function, the same phi-merge
    selections with the same values in the same order; and every execution
    of the returned function makes, in those blocks, the selections of some
    execution of the original function.  The forwarding blocks and
    dispatchers only reroute. *)
Theorem runOnFunction_preserves_executions (F : list Block) :
  wf F →
  ∃ b F',
    (∀ fuel, length F < fuel → runOnFunction fuel F = Some (b, F')) ∧
    (∀ fuel r, runOnFunction fuel F = Some r → r = (b, F')) ∧
    (∀ p tr, run F env0 entryBlock p = Some tr →
       ∃ p' tr', run F' env0 entryBlock p' = Some tr' ∧ original (length F) tr' = tr) ∧
    (∀ p' tr', run F' env0 entryBlock p' = Some tr' →
       ∃ p, run F env0 entryBlock p = Some (original (length F) tr')).
Proof.
  intros Hwf. destruct (runOnFunction_total F Hwf) as (b & F' & Hrun).
  exists b, F'.
  destruct (run_queue_equiv F (S (length F)) _ _ _ _ _
              (Hrun (S (length F)) (Nat.lt_succ_diag_r _)) Hwf (le_n _)
              (trace_equiv_refl F Hwf)) as (_ & _ & Hf & Hb).
  split_and!; [done| |done..].
  intros fuel r Hr.
  pose proof (run_queue_mono fuel (fuel + S (length F)) _ _ _ _ Hr ltac:(lia)) as H1.
  pose proof (Hrun (fuel + S (length F)) ltac:(lia)) as H2.
  unfold runOnFunction in H2. congruence.
Qed.

Lemma runOnFunction_preserves_executions_witness :
  wf two_entry_fn ∧
  (∀ fuel, length two_entry_fn < fuel →
     runOnFunction fuel two_entry_fn = Some (true, two_entry_fixed)) ∧
  (∀ p tr, run two_entry_fn env0 entryBlock p = Some tr →
     ∃ p' tr', run two_entry_fixed env0 entryBlock p' = Some tr' ∧
               original (length two_entry_fn) tr' = tr) ∧
  (∀ p' tr', run two_entry_fixed env0 entryBlock p' = Some tr' →
     ∃ p, run two_entry_fn env0 entryBlock p =
          Some (original (length two_entry_fn) tr')).
Proof.
  assert (Hwf : wf two_entry_fn) by (apply (bool_decide_unpack _); vm_compute; exact I).
  assert (Hrun : runOnFunction 2 two_entry_fn = Some (true, two_entry_fixed))
    by (vm_compute; reflexivity).
  destruct (runOnFunction_preserves_executions two_entry_fn Hwf)
    as (b & F' & Hfuel & Hsame & Hfwd & Hbwd).
  pose proof (Hsame 2 _ Hrun) as Heq.
  assert (b = true) as -> by congruence.
  assert (F' = two_entry_fixed) as -> by congruence.
  split; [exact Hwf|]. split; [exact Hfuel|]. split; [exact Hfwd|exact Hbwd].
Defined.

(** ** What a fix operation reduces *)






(** * Further properties of the code of the header *)

(** ** MetaBlock *)

(** X1. The constructor records a set: two enumerations of the predecessors
    that list the same blocks, in any order and any number of times each,
    give the same MetaBlock. *)
Theorem MetaBlock_new_enumeration_independent (DT : nat → nat → bool)
    (preds1 preds2 : list nat) (E : nat) :
  (∀ P, P ∈ preds1 ↔ P ∈ preds2) →
  MetaBlock_new DT preds1 E = MetaBlock_new DT preds2 E.
Proof.
  intros Hsame. unfold MetaBlock_new. f_equal. apply set_eq. intros P.
  rewrite !MetaBlock_visit_foldl, Hsame. done.
Qed.

Lemma MetaBlock_new_enumeration_independent_witness :
  (∀ P, P ∈ [2; 0; 2] ↔ P ∈ [0; 2]) ∧
  MetaBlock_new (dominates two_entry_fn) [2; 0; 2] 1 =
  MetaBlock_new (dominates two_entry_fn) [0; 2] 1.
Proof.
  assert (H : ∀ P, P ∈ [2; 0; 2] ↔ P ∈ [0; 2]).
  { intros P. rewrite !elem_of_cons, !elem_of_nil. tauto. }
  split; [exact H|].
  exact (MetaBlock_new_enumeration_independent (dominates two_entry_fn) _ _ 1 H).
Defined.

Lemma addForwardBlock_foldl (M : MetaBlock) (fwds : list nat) :
  Entry (foldl addForwardBlock M fwds) = Entry M ∧
  Preds (foldl addForwardBlock M fwds) = Preds M ∧
  Forwards (foldl addForwardBlock M fwds) = list_to_set fwds ∪ Forwards M.
Proof.
  revert M. induction fwds as [|x fwds IH]; intros M; simpl.
  - split_and!; [done..|]. set_solver.
  - destruct (IH (addForwardBlock M x)) as (-> & -> & ->). simpl.
    split_and!; [done..|]. set_solver.
Qed.

(** X2. Adding forward blocks to a fresh MetaBlock never touches its entry
    or its predecessors, and the forward blocks it holds afterwards are
    exactly the blocks that were added, whatever the order and however often
    each was added. *)
Theorem addForwardBlock_accumulates (DT : nat → nat → bool) (preds : list nat)
    (E : nat) (fwds : list nat) :
  let M0 := MetaBlock_new DT preds E in
  let M := foldl addForwardBlock M0 fwds in
  getEntry M = E ∧
  predecessors M = predecessors M0 ∧
  (∀ Fwd, Fwd ∈ forwards M ↔ Fwd ∈ fwds).
Proof.
  simpl. destruct (addForwardBlock_foldl (MetaBlock_new DT preds E) fwds)
    as (HE & HP & HF).
  unfold getEntry, predecessors, forwards. rewrite HE, HP, HF. simpl.
  split_and!; [done..|]. intros Fwd. set_solver.
Qed.

(** X3. With the dominator tree of the function, every predecessor a
    MetaBlock records has an edge to the entry of the MetaBlock, is not that
    entry, and is reachable from the entry block of the function (a block
    that cannot be reached is dominated by every block); and the MetaBlock
    of the entry block of the function records no predecessor at all. *)
Theorem MetaBlock_of_Preds_reachable (F : list Block) (H : nat) :
  (∀ P, P ∈ Preds (MetaBlock_of F H) → edge F P H ∧ P ≠ H ∧ reachable F P) ∧
  Preds (MetaBlock_of F entryBlock) = ∅.
Proof.
  split.
  - intros P [He Hd]%elem_of_MetaBlock_Preds.
    assert (¬ Dominates F H P) as Hnd.
    { rewrite <- dominates_spec. by rewrite Hd. }
    split_and!.
    + done.
    + intros ->. apply Hnd, Dominates_refl.
    + destruct (not_Dominates_path _ _ _ Hnd) as (p & Hp & _). by exists p.
  - apply set_eq. intros P. split; [|by intros ?%elem_of_empty].
    intros [_ Hd]%elem_of_MetaBlock_Preds. unfold dominates in Hd.
    rewrite (bool_decide_eq_true_2 (entryBlock = entryBlock)) in Hd by done.
    by rewrite orb_true_r in Hd.
Qed.

(** X4. The MetaBlock of a block that is reachable from the entry block of
    the function, and is not that block, records at least one predecessor:
    the fix operation creates at least one forwarding block for it. *)
Theorem MetaBlock_of_Preds_nonempty (F : list Block) (H : nat) :
  reachable F H → H ≠ entryBlock → Preds (MetaBlock_of F H) ≠ ∅.
Proof.
  intros Hr Hne. destruct (reachable_has_pred F H Hr Hne) as (P & He & Hnd & _).
  assert (P ∈ Preds (MetaBlock_of F H)) as HP.
  { apply elem_of_MetaBlock_Preds. split; [done|].
    apply not_true_is_false. by rewrite dominates_spec. }
  intros Hempty. rewrite Hempty in HP. by apply elem_of_empty in HP.
Qed.

Lemma MetaBlock_of_Preds_nonempty_witness :
  reachable two_entry_fn 1 ∧ 1 ≠ entryBlock ∧ Preds (MetaBlock_of two_entry_fn 1) ≠ ∅.
Proof.
  assert (Hr : reachable two_entry_fn 1).
  { exists [0; 1]. split_and!; [reflexivity..|].
    simpl. split; [|exact I]. apply (bool_decide_unpack _). vm_compute. exact I. }
  assert (Hne : 1 ≠ entryBlock) by (unfold entryBlock; lia).
  split; [exact Hr|]. split; [exact Hne|].
  exact (MetaBlock_of_Preds_nonempty two_entry_fn 1 Hr Hne).
Defined.

(** ** SubGraph::getOrCreate and the graph traits *)

Lemma getOrCreate_frame F G BB :
  cells G `prefix_of` cells (getOrCreate F G BB).2 ∧
  Nodes G ⊆ Nodes (getOrCreate F G BB).2 ∧
  Blocks (getOrCreate F G BB).2 = Blocks G ∧
  SG_Entry (getOrCreate F G BB).2 = SG_Entry G.
Proof.
  unfold getOrCreate. destruct (Nodes G !! BB) eqn:E; simpl.
  - done.
  - split_and!; [by eexists|by apply insert_subseteq|done..].
Qed.

Lemma getOrCreate_all_frame F bbs : ∀ G,
  cells G `prefix_of` cells (getOrCreate_all F G bbs).2 ∧
  Nodes G ⊆ Nodes (getOrCreate_all F G bbs).2 ∧
  Blocks (getOrCreate_all F G bbs).2 = Blocks G ∧
  SG_Entry (getOrCreate_all F G bbs).2 = SG_Entry G.
Proof.
  induction bbs as [|BB rest IH]; intros G; simpl; [done|].
  destruct (getOrCreate_frame F G BB) as (H1 & H2 & H3 & H4).
  destruct (getOrCreate F G BB) as [p G1]. simpl in *.
  destruct (IH G1) as (H1' & H2' & H3' & H4').
  destruct (getOrCreate_all F G1 rest) as [ps G2]. simpl in *.
  split_and!; [by etrans|by etrans|congruence..].
Qed.

(** X5. Calls of [getOrCreate] only ever add to a subgraph: its entry and
    its member set stay as they are, the nodes stored before the calls are
    still stored at the same positions, and every pointer that the map held
    for a block is still the pointer of that block and still points to the
    same node. *)
Theorem getOrCreate_keeps_nodes (F : list Block) (G : SubGraph) (bbs : list nat) :
  let G' := (getOrCreate_all F G bbs).2 in
  SG_Entry G' = SG_Entry G ∧ Blocks G' = Blocks G ∧
  cells G `prefix_of` cells G' ∧
  (∀ b p N, Nodes G !! b = Some p → cells G !! p = Some N →
     Nodes G' !! b = Some p ∧ cells G' !! p = Some N).
Proof.
  simpl. destruct (getOrCreate_all_frame F bbs G) as (H1 & H2 & H3 & H4).
  split_and!; [done..|]. intros b p N Hb Hp. split.
  - by eapply lookup_weaken.
  - by eapply prefix_lookup_Some.
Qed.

Lemma getOrCreate_all_hits F bbs : ∀ G,
  (∀ b, b ∈ bbs → cached G b) →
  (getOrCreate_all F G bbs).2 = G ∧
  (∀ i b, bbs !! i = Some b → (getOrCreate_all F G bbs).1 !! i = Nodes G !! b) ∧
  length (getOrCreate_all F G bbs).1 = length bbs.
Proof.
  induction bbs as [|BB rest IH]; intros G Hall; simpl.
  - split_and!; [done| |done]. by intros [].
  - destruct (Hall BB) as [p Hp]; [left|].
    assert (getOrCreate F G BB = (p, G)) as -> by (unfold getOrCreate; by rewrite Hp).
    destruct (IH G) as (H1 & H2 & H3); [intros b Hb; apply Hall; by right|].
    destruct (getOrCreate_all F G rest) as [ps G2]. simpl in *.
    split_and!; [done| |by rewrite H3].
    intros [|i] b; simpl; [by intros [= <-]|apply H2].
Qed.

(** X6. Calls of [getOrCreate] for blocks that all have a node already
    change nothing: the subgraph is returned as it was, no node is created,
    and each call returns the pointer the map holds for its block. *)
Theorem getOrCreate_cached_is_lookup (F : list Block) (G : SubGraph) (bbs : list nat) :
  (∀ b, b ∈ bbs → cached G b) →
  (getOrCreate_all F G bbs).2 = G ∧
  length (getOrCreate_all F G bbs).1 = length bbs ∧
  (∀ i b, bbs !! i = Some b → (getOrCreate_all F G bbs).1 !! i = Nodes G !! b).
Proof.
  intros Hall. destruct (getOrCreate_all_hits F bbs G Hall) as (H1 & H2 & H3). done.
Qed.

Lemma getOrCreate_cached_is_lookup_witness :
  let G := (getOrCreate_all two_entry_fn (SubGraph_new 0 {[0; 1; 2]}) [0; 1]).2 in
  (∀ b, b ∈ [1; 0; 1] → cached G b) ∧
  (getOrCreate_all two_entry_fn G [1; 0; 1]).2 = G ∧
  length (getOrCreate_all two_entry_fn G [1; 0; 1]).1 = length [1; 0; 1] ∧
  (∀ i b, [1; 0; 1] !! i = Some b →
     (getOrCreate_all two_entry_fn G [1; 0; 1]).1 !! i = Nodes G !! b).
Proof.
  intros G.
  assert (H : ∀ b, b ∈ [1; 0; 1] → cached G b).
  { intros b Hb. rewrite !elem_of_cons, elem_of_nil in Hb.
    destruct Hb as [->|[->|[->|[]]]]; vm_compute; eexists; reflexivity. }
  split; [exact H|].
  exact (getOrCreate_cached_is_lookup two_entry_fn G [1; 0; 1] H).
Defined.

(** X7. Enumerating the children of a node through the graph traits a
    second time creates no node and returns the same pointers as the first
    time, in the same order: the first enumeration left a node for every
    successor, and the node enumerated did not move. *)
Theorem children_twice (F : list Block) (E : nat) (B : gset nat)
    (pre : list nat) (p : nat) :
  let G := (getOrCreate_all F (SubGraph_new E B) pre).2 in
  let G1 := (children F G p).2 in
  (children F G1 p).1 = (children F G p).1 ∧ (children F G1 p).2 = G1.
Proof.
  simpl.
  destruct (getOrCreate_all F (SubGraph_new E B) pre) as [ps0 G] eqn:E0.
  destruct (getOrCreate_all_spec _ _ _ _ _ (cache_ok_new E B) E0) as (Hok & _).
  simpl. destruct (cells G !! p) as [N|] eqn:HN.
  2:{ assert (children F G p = ([], G)) as Hc by (unfold children; by rewrite HN).
      rewrite Hc. simpl. by rewrite Hc. }
  destruct (getOrCreate_all F G (Succs N)) as [ps G1] eqn:E1.
  assert (children F G p = (ps, G1)) as Hc by (unfold children; by rewrite HN).
  rewrite Hc. simpl.
  destruct (getOrCreate_all_spec _ _ _ _ _ Hok E1) as (Hok1 & _ & Hlen & Hptr & Hdom).
  destruct (getOrCreate_all_frame F (Succs N) G) as (Hpre & _).
  rewrite E1 in Hpre. simpl in Hpre.
  assert (children F G1 p = getOrCreate_all F G1 (Succs N)) as ->.
  { unfold children. by rewrite (prefix_lookup_Some _ _ _ _ HN Hpre). }
  destruct (getOrCreate_all_hits F (Succs N) G1) as (H1 & H2 & H3).
  { intros b Hb. apply elem_of_dom. rewrite Hdom. apply elem_of_union. left.
    by apply elem_of_list_to_set. }
  split; [|done]. apply list_eq. intros i.
  destruct (Succs N !! i) as [b|] eqn:Hb.
  - rewrite (H2 i b Hb). destruct (ps !! i) as [q|] eqn:Hq.
    + by apply (Hptr i b q).
    + apply lookup_ge_None in Hq. apply lookup_lt_Some in Hb. lia.
  - apply lookup_ge_None in Hb. rewrite !lookup_ge_None_2; [done|lia..].
Qed.

(** X8. Enumerating the children of a node through the graph traits gives
    one pointer per successor recorded in the node, in the order of
    [Succs]; the pointer at each place is the one the map now holds for that
    successor and points to a node whose header is that successor.
    Afterwards the map holds a node for the blocks it held one for before
    and for the successors of the node, and for no other block, and the
    storage holds one node for each of them. *)
Theorem children_are_successor_nodes (F : list Block) (E : nat) (B : gset nat)
    (pre : list nat) (p : nat) (N : GraphNode) :
  let G := (getOrCreate_all F (SubGraph_new E B) pre).2 in
  cells G !! p = Some N →
  let ps := (children F G p).1 in
  let G1 := (children F G p).2 in
  length ps = length (Succs N) ∧
  (∀ i b, Succs N !! i = Some b →
     ∃ q, ps !! i = Some q ∧ Nodes G1 !! b = Some q ∧
          Header <$> cells G1 !! q = Some b) ∧
  dom (Nodes G1) = list_to_set (Succs N) ∪ dom (Nodes G) ∧
  length (cells G1) = size (list_to_set (Succs N) ∪ dom (Nodes G)).
Proof.
  simpl.
  destruct (getOrCreate_all F (SubGraph_new E B) pre) as [ps0 G] eqn:E0.
  destruct (getOrCreate_all_spec _ _ _ _ _ (cache_ok_new E B) E0) as (Hok & _).
  simpl. intros HN.
  destruct (getOrCreate_all F G (Succs N)) as [ps G1] eqn:E1.
  assert (children F G p = (ps, G1)) as -> by (unfold children; by rewrite HN).
  simpl.
  destruct (getOrCreate_all_spec _ _ _ _ _ Hok E1) as (Hok1 & _ & Hlen & Hptr & Hdom).
  split_and!.
  - done.
  - intros i b Hb. destruct (ps !! i) as [q|] eqn:Hq.
    + exists q. pose proof (Hptr i b q Hb Hq) as Hq'. split_and!; [done..|].
      by apply Hok1.
    + apply lookup_ge_None in Hq. apply lookup_lt_Some in Hb. lia.
  - done.
  - destruct Hok1 as [_ ->]. by rewrite <- Hdom, size_dom.
Qed.

Lemma children_are_successor_nodes_witness :
  let F := two_entry_fn in
  let N := GraphNode_new F {[0; 1; 2]} 0 in
  let G := (getOrCreate_all F (SubGraph_new 0 {[0; 1; 2]}) [0]).2 in
  cells G !! 0 = Some N ∧
  length (children F G 0).1 = length (Succs N) ∧
  (∀ i b, Succs N !! i = Some b →
     ∃ q, (children F G 0).1 !! i = Some q ∧ Nodes (children F G 0).2 !! b = Some q ∧
          Header <$> cells (children F G 0).2 !! q = Some b) ∧
  dom (Nodes (children F G 0).2) = list_to_set (Succs N) ∪ dom (Nodes G) ∧
  length (cells (children F G 0).2) = size (list_to_set (Succs N) ∪ dom (Nodes G)).
Proof.
  intros F N G.
  assert (H : cells G !! 0 = Some N) by (vm_compute; reflexivity).
  split; [exact H|].
  exact (children_are_successor_nodes F 0 {[0; 1; 2]} [0] 0 N H).
Defined.
